(** * Mirage-tank image builder: the pixel pipeline of [main.go]

    A shallow embedding of the Go program and of the part of Go's [image],
    [image/color], [image/png] and [x/image/draw] packages it calls, followed
    by the properties of the per-pixel stages and of the driver.

    Conventions.
    - Go's fixed-width integers are [Z] with the wrap-around of each
      conversion written out ([uint8], [uint32], [int]).  Raster coordinates
      and slice offsets stay plain [Z]: an allocated raster is far below
      [2^63] elements.
    - [float64] is Rocq's primitive binary64 [float]; every operation is
      rounded on its own (no fused multiply-add).
    - A run-time panic, a conversion whose result Go leaves to the
      implementation and [log.Fatal] are the three ways a call does not
      return; they are the [Abort] results of the [outcome] monad. *)

From Stdlib Require Import ZArith Lia Bool List String Floats Uint63.
From stdpp Require Import base option list.

Local Open Scope Z_scope.

(** ** Results of calls *)

Inductive failure :=
| IndexOutOfRange              (* panic: slice index out of range *)
| InvalidSize                  (* panic of an image constructor *)
| ImplementationDependent      (* float to integer conversion out of range *)
| Fatal (diagnostic : string). (* log.Fatal: message, then exit status 1 *)

Inductive outcome (A : Type) :=
| Done (a : A)
| Abort (f : failure).
Arguments Done {A} a.
Arguments Abort {A} f.

#[global] Instance outcome_ret : MRet outcome := λ A a, Done a.
#[global] Instance outcome_bind : MBind outcome := λ A B k m,
  match m with Done a => k a | Abort f => Abort f end.
#[global] Instance outcome_fmap : FMap outcome := λ A B k m,
  match m with Done a => Done (k a) | Abort f => Abort f end.

(** [for i := lo; i < hi; i++ { s = body i s }] *)
Fixpoint for_iter {St} (n : nat) (i : Z) (body : Z → St → outcome St) (s : St)
  : outcome St :=
  match n with
  | O => Done s
  | S n' => s' ← body i s; for_iter n' (i + 1) body s'
  end.

Definition for_loop {St} (lo hi : Z) (body : Z → St → outcome St) (s : St)
  : outcome St :=
  for_iter (Z.to_nat (hi - lo)) lo body s.

(** ** Machine numbers *)

Definition uint8 (z : Z) : Z := z mod 2 ^ 8.
Definition uint32 (z : Z) : Z := z mod 2 ^ 32.
(** Go's [int], 64 bits, two's complement. *)
Definition int (z : Z) : Z := (z + 2 ^ 63) mod 2 ^ 64 - 2 ^ 63.

Definition is_uint8 (z : Z) : Prop := 0 ≤ z < 256.
Definition is_uint16 (z : Z) : Prop := 0 ≤ z < 65536.

(** [float64(v)] for an integer [v] with [|v| < 2^63]. *)
Definition float64 (v : Z) : float :=
  if 0 <=? v then PrimFloat.of_uint63 (Uint63.of_Z v)
  else (- PrimFloat.of_uint63 (Uint63.of_Z (- v)))%float.

(** The integer part of a finite float (the fraction is discarded). *)
Definition float64_trunc (f : float) : option Z :=
  match Prim2SF f with
  | S754_zero _ => Some 0
  | S754_finite s m e =>
      Some (if s then - Z.shiftl (Z.pos m) e else Z.shiftl (Z.pos m) e)
  | S754_infinity _ | S754_nan => None
  end.

(** [uint8(f)] and [int(f)] for a float [f]: truncation toward zero; outside
    the target type the language leaves the result to the implementation. *)
Definition uint8_of_float64 (f : float) : outcome Z :=
  match float64_trunc f with
  | Some z => if (0 <=? z) && (z <? 2 ^ 8) then Done z
              else Abort ImplementationDependent
  | None => Abort ImplementationDependent
  end.

Definition int_of_float64 (f : float) : outcome Z :=
  match float64_trunc f with
  | Some z => if (- 2 ^ 63 <=? z) && (z <? 2 ^ 63) then Done z
              else Abort ImplementationDependent
  | None => Abort ImplementationDependent
  end.

(** ** Package [image/color] *)

Module color.

Record Gray := mkGray { Y : Z }.
Record NRGBA := mkNRGBA { R : Z; G : Z; B : Z; A : Z }.
(** Alpha-premultiplied 8-bit colour. *)
Record RGBA := mkRGBA { RGBA_R : Z; RGBA_G : Z; RGBA_B : Z; RGBA_A : Z }.

(** A value of interface type [Color]: what its method [RGBA()] returns,
    the alpha-premultiplied channels on 16 bits. *)
Record Color := mkColor { RGBA_method : Z * Z * Z * Z }.

(** [func (c RGBA) RGBA() (r, g, b, a uint32)]: [r = uint32(c.R); r |= r << 8]. *)
Definition widen (c : Z) : Z := Z.lor c (uint32 (Z.shiftl c 8)).

Definition of_RGBA (c : RGBA) : Color :=
  mkColor (widen (RGBA_R c), widen (RGBA_G c), widen (RGBA_B c), widen (RGBA_A c)).

(** [func (c Gray) RGBA()]: [y = uint32(c.Y); y |= y << 8; return y, y, y, 0xffff]. *)
Definition of_Gray (c : Gray) : Color :=
  mkColor (widen (Y c), widen (Y c), widen (Y c), 65535).

End color.

(** ** Package [image] *)

Module image.

Record Point := Pt { X : Z; Y : Z }.
Record Rectangle := mkRectangle { Min : Point; Max : Point }.

(** [image.Rect]: the rectangle with the coordinates put in order. *)
Definition Rect (x0 y0 x1 y1 : Z) : Rectangle :=
  let '(x0, x1) := if x1 <? x0 then (x1, x0) else (x0, x1) in
  let '(y0, y1) := if y1 <? y0 then (y1, y0) else (y0, y1) in
  mkRectangle (Pt x0 y0) (Pt x1 y1).

Definition Dx (r : Rectangle) : Z := X (Max r) - X (Min r).
Definition Dy (r : Rectangle) : Z := Y (Max r) - Y (Min r).

(** [Point{x, y}.In(r)] *)
Definition In (x y : Z) (r : Rectangle) : bool :=
  (X (Min r) <=? x) && (x <? X (Max r)) && (Y (Min r) <=? y) && (y <? Y (Max r)).

(** A slice index expression [Pix[i]]. *)
Definition index (Pix : list Z) (i : Z) : outcome Z :=
  if i <? 0 then Abort IndexOutOfRange
  else match Pix !! Z.to_nat i with
       | Some b => Done b
       | None => Abort IndexOutOfRange
       end.

(** An assignment [Pix[i] = b]. *)
Definition assign (Pix : list Z) (i : Z) (b : Z) : outcome (list Z) :=
  if (0 <=? i) && (i <? Z.of_nat (length Pix)) then Done (<[Z.to_nat i := b]> Pix)
  else Abort IndexOutOfRange.

(** [make([]uint8, pixelBufferLength(bytesPerPixel, r, ...))]: the length
    is the product of the three numbers; a negative side, a first product
    that leaves 64 bits or a length that leaves [int] is a panic. *)
Definition pixelBuffer (bytesPerPixel : Z) (r : Rectangle) : outcome (list Z) :=
  if (Dx r <? 0) || (Dy r <? 0)
     || (2 ^ 64 <=? bytesPerPixel * Dx r)
     || (2 ^ 63 <=? bytesPerPixel * Dx r * Dy r)
  then Abort InvalidSize
  else Done (replicate (Z.to_nat (bytesPerPixel * Dx r * Dy r)) 0).

(** Rasters of bounds [r], of up to 4 bytes a pixel, can be allocated. *)
Definition fits (r : Rectangle) : Prop :=
  4 * Dx r < 2 ^ 64 ∧ 4 * Dx r * Dy r < 2 ^ 63.

(** *** [image.Gray] *)

Record Gray := mkGray { Gray_Pix : list Z; Gray_Stride : Z; Gray_Rect : Rectangle }.

Definition NewGray (r : Rectangle) : outcome Gray :=
  pix ← pixelBuffer 1 r; mret (mkGray pix (1 * Dx r) r).

Definition Gray_Bounds (p : Gray) : Rectangle := Gray_Rect p.

Definition Gray_PixOffset (p : Gray) (x y : Z) : Z :=
  (y - Y (Min (Gray_Rect p))) * Gray_Stride p + (x - X (Min (Gray_Rect p))) * 1.

Definition GrayAt (p : Gray) (x y : Z) : outcome color.Gray :=
  if negb (In x y (Gray_Rect p)) then Done (color.mkGray 0)
  else b ← index (Gray_Pix p) (Gray_PixOffset p x y); mret (color.mkGray b).

(** [Set] with a [color.Gray] argument: the gray model leaves it as it is. *)
Definition Gray_Set (p : Gray) (x y : Z) (c : color.Gray) : outcome Gray :=
  if negb (In x y (Gray_Rect p)) then Done p
  else pix ← assign (Gray_Pix p) (Gray_PixOffset p x y) (color.Y c);
       mret (mkGray pix (Gray_Stride p) (Gray_Rect p)).

(** *** [image.NRGBA] *)

Record NRGBA := mkNRGBA { NRGBA_Pix : list Z; NRGBA_Stride : Z; NRGBA_Rect : Rectangle }.

Definition NewNRGBA (r : Rectangle) : outcome NRGBA :=
  pix ← pixelBuffer 4 r; mret (mkNRGBA pix (4 * Dx r) r).

Definition NRGBA_Bounds (p : NRGBA) : Rectangle := NRGBA_Rect p.

Definition NRGBA_PixOffset (p : NRGBA) (x y : Z) : Z :=
  (y - Y (Min (NRGBA_Rect p))) * NRGBA_Stride p + (x - X (Min (NRGBA_Rect p))) * 4.

(** [s := p.Pix[i : i+4 : i+4]] panics unless [0 <= i] and [i+4 <= cap]. *)
Definition slice4 (Pix : list Z) (i : Z) : outcome unit :=
  if (0 <=? i) && (i + 4 <=? Z.of_nat (length Pix)) then Done tt
  else Abort IndexOutOfRange.

Definition NRGBAAt (p : NRGBA) (x y : Z) : outcome color.NRGBA :=
  if negb (In x y (NRGBA_Rect p)) then Done (color.mkNRGBA 0 0 0 0)
  else let i := NRGBA_PixOffset p x y in
       _ ← slice4 (NRGBA_Pix p) i;
       r ← index (NRGBA_Pix p) i;
       g ← index (NRGBA_Pix p) (i + 1);
       b ← index (NRGBA_Pix p) (i + 2);
       a ← index (NRGBA_Pix p) (i + 3);
       mret (color.mkNRGBA r g b a).

(** [Set] with a [color.NRGBA] argument: the NRGBA model leaves it as it is. *)
Definition NRGBA_Set (p : NRGBA) (x y : Z) (c : color.NRGBA) : outcome NRGBA :=
  if negb (In x y (NRGBA_Rect p)) then Done p
  else let i := NRGBA_PixOffset p x y in
       _ ← slice4 (NRGBA_Pix p) i;
       pix ← assign (NRGBA_Pix p) i (color.R c);
       pix ← assign pix (i + 1) (color.G c);
       pix ← assign pix (i + 2) (color.B c);
       pix ← assign pix (i + 3) (color.A c);
       mret (mkNRGBA pix (NRGBA_Stride p) (NRGBA_Rect p)).

(** *** [image.RGBA] *)

Record RGBA := mkRGBA { RGBA_Pix : list Z; RGBA_Stride : Z; RGBA_Rect : Rectangle }.

Definition NewRGBA (r : Rectangle) : outcome RGBA :=
  pix ← pixelBuffer 4 r; mret (mkRGBA pix (4 * Dx r) r).

Definition RGBA_Bounds (p : RGBA) : Rectangle := RGBA_Rect p.

Definition RGBA_PixOffset (p : RGBA) (x y : Z) : Z :=
  (y - Y (Min (RGBA_Rect p))) * RGBA_Stride p + (x - X (Min (RGBA_Rect p))) * 4.

Definition RGBAAt (p : RGBA) (x y : Z) : outcome color.RGBA :=
  if negb (In x y (RGBA_Rect p)) then Done (color.mkRGBA 0 0 0 0)
  else let i := RGBA_PixOffset p x y in
       _ ← slice4 (RGBA_Pix p) i;
       r ← index (RGBA_Pix p) i;
       g ← index (RGBA_Pix p) (i + 1);
       b ← index (RGBA_Pix p) (i + 2);
       a ← index (RGBA_Pix p) (i + 3);
       mret (color.mkRGBA r g b a).

(** *** The interface [image.Image] *)

Class Image (I : Type) := {
  Bounds : I → Rectangle;
  At : I → Z → Z → outcome color.Color
}.

#[global] Instance Gray_Image : Image Gray :=
  {| Bounds := Gray_Bounds; At p x y := color.of_Gray <$> GrayAt p x y |}.

#[global] Instance RGBA_Image : Image RGBA :=
  {| Bounds := RGBA_Bounds; At p x y := color.of_RGBA <$> RGBAAt p x y |}.

End image.

(** ** The program: helper functions *)

Definition max (a b : Z) : Z := if b <? a then a else b.
Definition min (a b : Z) : Z := if a <? b then a else b.

Definition clamp (value min max : Z) : Z :=
  if value <? min then min
  else if max <? value then max
  else value.

(** ** The program: pixel stages *)

(** Desaturate converts an RGB image to a desaturated grayscale image. *)
Definition Desaturate {I} `{image.Image I} (img : I) : outcome image.Gray :=
  let bounds := image.Bounds img in
  grayImg ← image.NewGray bounds;
  for_loop (image.Y (image.Min bounds)) (image.Y (image.Max bounds)) (λ y grayImg,
    for_loop (image.X (image.Min bounds)) (image.X (image.Max bounds)) (λ x grayImg,
      c ← image.At img x y;
      let '(r, g, b, _) := color.RGBA_method c in
      let maxVal := Z.shiftr (uint32 (max (max r g) b)) 8 in
      let minVal := Z.shiftr (uint32 (min (min r g) b)) 8 in
      let gray := uint8 (uint32 (maxVal + minVal) / 2) in
      image.Gray_Set grayImg x y (color.mkGray gray)) grayImg) grayImg.

(** The pixel of AdjustLightness: the two branches on the sign of [ratio]. *)
Definition AdjustLightness_pixel (gray : Z) (ratio : float) : outcome Z :=
  if (0 <? ratio)%float
  then uint8_of_float64 (float64 gray * (1 - ratio) + 255 * ratio)%float
  else uint8_of_float64 (float64 gray * (1 + ratio))%float.

(** AdjustLightness adjusts the lightness of a grayscale image. *)
Definition AdjustLightness (img : image.Gray) (ratio : float) : outcome image.Gray :=
  let bounds := image.Gray_Bounds img in
  adjusted ← image.NewGray bounds;
  for_loop (image.Y (image.Min bounds)) (image.Y (image.Max bounds)) (λ y adjusted,
    for_loop (image.X (image.Min bounds)) (image.X (image.Max bounds)) (λ x adjusted,
      gray ← color.Y <$> image.GrayAt img x y;
      newGray ← AdjustLightness_pixel gray ratio;
      image.Gray_Set adjusted x y (color.mkGray newGray)) adjusted) adjusted.

(** Invert inverts the color of the grayscale image. *)
Definition Invert (img : image.Gray) : outcome image.Gray :=
  let bounds := image.Gray_Bounds img in
  inverted ← image.NewGray bounds;
  for_loop (image.Y (image.Min bounds)) (image.Y (image.Max bounds)) (λ y inverted,
    for_loop (image.X (image.Min bounds)) (image.X (image.Max bounds)) (λ x inverted,
      gray ← color.Y <$> image.GrayAt img x y;
      image.Gray_Set inverted x y (color.mkGray (uint8 (255 - gray)))) inverted) inverted.

(** LinearDodgeBlend blends two grayscale images. *)
Definition LinearDodgeBlend (imgX imgY : image.Gray) : outcome image.Gray :=
  let bounds := image.Gray_Bounds imgX in
  result ← image.NewGray bounds;
  for_loop (image.Y (image.Min bounds)) (image.Y (image.Max bounds)) (λ y result,
    for_loop (image.X (image.Min bounds)) (image.X (image.Max bounds)) (λ x result,
      grayX ← color.Y <$> image.GrayAt imgX x y;
      grayY ← color.Y <$> image.GrayAt imgY x y;
      let newGray := uint8 (clamp (int (int grayX + int grayY)) 0 255) in
      image.Gray_Set result x y (color.mkGray newGray)) result) result.

(** DivideBlend blends two grayscale images in 'divide' mode. *)
Definition DivideBlend (imgX imgY : image.Gray) : outcome image.Gray :=
  let bounds := image.Gray_Bounds imgX in
  result ← image.NewGray bounds;
  for_loop (image.Y (image.Min bounds)) (image.Y (image.Max bounds)) (λ y result,
    for_loop (image.X (image.Min bounds)) (image.X (image.Max bounds)) (λ x result,
      grayX ← color.Y <$> image.GrayAt imgX x y;
      grayY ← color.Y <$> image.GrayAt imgY x y;
      let newGray :=
        if grayX =? 0 then 255
        else uint8 (clamp (int (int (int grayY * 255) ÷ int grayX)) 0 255) in
      image.Gray_Set result x y (color.mkGray newGray)) result) result.

(** AddMask adds an alpha channel to the grayscale image. *)
Definition AddMask (imgX imgY : image.Gray) : outcome image.NRGBA :=
  let bounds := image.Gray_Bounds imgX in
  result ← image.NewNRGBA bounds;
  for_loop (image.Y (image.Min bounds)) (image.Y (image.Max bounds)) (λ y result,
    for_loop (image.X (image.Min bounds)) (image.X (image.Max bounds)) (λ x result,
      gray ← color.Y <$> image.GrayAt imgX x y;
      alpha ← color.Y <$> image.GrayAt imgY x y;
      image.NRGBA_Set result x y (color.mkNRGBA gray gray gray alpha)) result) result.

(** ** The driver and its collaborators *)

(** A Go call returning [(value, error)]. *)
Inductive result (A : Type) :=
| Ok (a : A)
| Err (err : string).
Arguments Ok {A} a.
Arguments Err {A} err.

(** [if err != nil { log.Fatal(err) }] *)
Definition or_Fatal {A} (r : result A) : outcome A :=
  match r with Ok a => Done a | Err err => Abort (Fatal err) end.

Module png.

(** [png.Encode(w, m)]: an image with a side outside [1 .. 2^32 - 1] is
    refused with a format error; otherwise the encoding goes to the writer. *)
Definition Encode (write : image.NRGBA → result unit) (m : image.NRGBA) : result unit :=
  let mw := image.Dx (image.NRGBA_Bounds m) in
  let mh := image.Dy (image.NRGBA_Bounds m) in
  if (mw <=? 0) || (mh <=? 0) || (2 ^ 32 <=? mw) || (2 ^ 32 <=? mh)
  then Err "png: invalid format: invalid image size"
  else write m.

End png.

(** Build, lines 149 to 159: the stages applied to the two resized images. *)
Definition Build_stages {I} `{image.Image I} (imgA imgB : I) : outcome image.NRGBA :=
  grayImgA ← Desaturate imgA;
  grayImgB ← Desaturate imgB;
  imgA ← (lifted ← AdjustLightness grayImgA 0.5; Invert lifted);
  imgB ← AdjustLightness grayImgB (-0.5);
  linearDodge ← LinearDodgeBlend imgA imgB;
  divided ← DivideBlend linearDodge imgB;
  AddMask divided linearDodge.

Section Driver.

(** The decoded image type and the collaborators: the file system, the
    decoder and the resampler [draw.CatmullRom.Scale], which writes the
    pixels of its destination. *)
Context {Src : Type} `{!image.Image Src}.
Variable File : Type.
Variable os_Open : string → result File.
Variable image_Decode : File → result Src.
Variable os_Create : string → result File.
Variable File_Write : File → image.NRGBA → result unit.
Variable CatmullRom_Scale :
  image.RGBA → image.Rectangle → Src → image.Rectangle → image.RGBA.

(** Resize resizes the image to the specified width and height. *)
Definition resize (img : Src) (width height : Z) : outcome image.RGBA :=
  newImg ← image.NewRGBA (image.Rect 0 0 width height);
  mret (CatmullRom_Scale newImg (image.RGBA_Bounds newImg) img (image.Bounds img)).

(** Build creates the 'mirage tank' image; [Done] carries the image that was
    encoded into the target file. *)
Definition Build (sourceX sourceY targetName : string) (shrink : float)
  : outcome image.NRGBA :=
  imgAFile ← or_Fatal (os_Open sourceX);
  imgBFile ← or_Fatal (os_Open sourceY);
  imgA ← or_Fatal (image_Decode imgAFile);
  imgB ← or_Fatal (image_Decode imgBFile);
  width ← int_of_float64 (float64 (image.X (image.Max (image.Bounds imgA))) * shrink);
  height ← int_of_float64 (float64 (image.Y (image.Max (image.Bounds imgA))) * shrink);
  imgA ← resize imgA width height;
  imgB ← resize imgB width height;
  finalImage ← Build_stages imgA imgB;
  outputFile ← or_Fatal (os_Create targetName);
  _ ← or_Fatal (png.Encode (File_Write outputFile) finalImage);
  mret finalImage.

End Driver.

(** The run ended in [log.Fatal]. *)
Definition rejected {A} (m : outcome A) : Prop := ∃ err, m = Abort (Fatal err).

(** ** Loops *)

Section Loops.
Context {St : Type}.

(** A loop whose body keeps an invariant indexed by the counter. *)
Lemma for_iter_inv (Inv : St → Z → Prop) (body : Z → St → outcome St) (lo hi : Z) :
  (∀ i s, lo ≤ i < hi → Inv s i → ∃ s', body i s = Done s' ∧ Inv s' (i + 1)) →
  ∀ n i s, lo ≤ i → i + Z.of_nat n ≤ hi → Inv s i →
    ∃ s', for_iter n i body s = Done s' ∧ Inv s' (i + Z.of_nat n).
Proof.
  intros Hstep n. induction n as [|n IH]; intros i s Hlo Hhi Hinv.
  - exists s. split; [reflexivity|]. now replace (i + Z.of_nat 0) with i by lia.
  - destruct (Hstep i s) as (s1 & Hb & H1); [lia|assumption|].
    destruct (IH (i + 1) s1) as (s2 & Hr & H2); [lia|lia|assumption|].
    exists s2. split.
    + cbn [for_iter]. rewrite Hb. exact Hr.
    + now replace (i + Z.of_nat (S n)) with (i + 1 + Z.of_nat n) by lia.
Qed.

Lemma for_loop_inv (Inv : St → Z → Prop) (body : Z → St → outcome St) (lo hi : Z) s :
  lo ≤ hi →
  (∀ i s, lo ≤ i < hi → Inv s i → ∃ s', body i s = Done s' ∧ Inv s' (i + 1)) →
  Inv s lo →
  ∃ s', for_loop lo hi body s = Done s' ∧ Inv s' hi.
Proof.
  intros Hle Hstep Hinv. unfold for_loop.
  destruct (for_iter_inv Inv body lo hi Hstep (Z.to_nat (hi - lo)) lo s)
    as (s' & Hr & H'); [lia|lia|assumption|].
  exists s'. split; [assumption|].
  now replace (lo + Z.of_nat (Z.to_nat (hi - lo))) with hi in H' by lia.
Qed.

(** The row-major scan of a rectangle: [P s k] holds when the first [k]
    pixels have been visited. *)
Lemma raster_loops (r : image.Rectangle) (P : St → Z → Prop)
    (body : Z → Z → St → outcome St) (s : St) :
  0 ≤ image.Dx r → 0 ≤ image.Dy r →
  (∀ x y s, image.In x y r = true →
     P s ((y - image.Y (image.Min r)) * image.Dx r + (x - image.X (image.Min r))) →
     ∃ s', body y x s = Done s' ∧
           P s' ((y - image.Y (image.Min r)) * image.Dx r + (x - image.X (image.Min r)) + 1)) →
  P s 0 →
  ∃ s', for_loop (image.Y (image.Min r)) (image.Y (image.Max r)) (λ y s,
          for_loop (image.X (image.Min r)) (image.X (image.Max r)) (λ x s,
            body y x s) s) s = Done s'
        ∧ P s' (image.Dx r * image.Dy r).
Proof.
  intros Hw Hh Hstep H0. unfold image.Dx, image.Dy in *.
  set (x0 := image.X (image.Min r)) in *. set (x1 := image.X (image.Max r)) in *.
  set (y0 := image.Y (image.Min r)) in *. set (y1 := image.Y (image.Max r)) in *.
  destruct (for_loop_inv (λ s y, P s ((y - y0) * (x1 - x0)))
              (λ y s, for_loop x0 x1 (λ x s, body y x s) s) y0 y1 s)
    as (s' & Hr & H'); [lia| |now replace ((y0 - y0) * (x1 - x0)) with 0 by lia|].
  - intros y t Hy Ht.
    destruct (for_loop_inv (λ s x, P s ((y - y0) * (x1 - x0) + (x - x0)))
                (λ x s, body y x s) x0 x1 t)
      as (t' & Hr & H'); [lia| |now replace ((y - y0) * (x1 - x0) + (x0 - x0))
                                   with ((y - y0) * (x1 - x0)) by lia|].
    + intros x u Hx Hu.
      destruct (Hstep x y u) as (u' & Hb & Hu'); [|assumption|].
      { unfold image.In. fold x0 x1 y0 y1.
        repeat (apply andb_true_intro; split); lia. }
      exists u'. split; [assumption|].
      now replace ((y - y0) * (x1 - x0) + (x + 1 - x0))
        with ((y - y0) * (x1 - x0) + (x - x0) + 1) by lia.
    + exists t'. split; [assumption|].
      now replace ((y + 1 - y0) * (x1 - x0))
        with ((y - y0) * (x1 - x0) + (x1 - x0)) by lia.
  - exists s'. split; [assumption|].
    now replace ((x1 - x0) * (y1 - y0)) with ((y1 - y0) * (x1 - x0)) by lia.
Qed.

End Loops.

(** ** Gray rasters as functions of the coordinates *)

(** Row-major addressing: column [a] of row [b] in rows of width [w]. *)
Lemma row_major (w a b : Z) :
  0 ≤ a < w → (b * w + a) mod w = a ∧ (b * w + a) / w = b.
Proof.
  intros Ha. split.
  - rewrite Z.add_comm, Z.mod_add by lia. apply Z.mod_small; lia.
  - rewrite Z.add_comm, Z.div_add by lia. rewrite Z.div_small; lia.
Qed.

Lemma In_spec (x y : Z) (r : image.Rectangle) :
  image.In x y r = true ↔
  image.X (image.Min r) ≤ x < image.X (image.Max r) ∧
  image.Y (image.Min r) ≤ y < image.Y (image.Max r).
Proof.
  unfold image.In. rewrite !andb_true_iff, !Z.leb_le, !Z.ltb_lt. lia.
Qed.

Lemma pixelBuffer_fits (bytesPerPixel : Z) (r : image.Rectangle) :
  0 ≤ image.Dx r → 0 ≤ image.Dy r → image.fits r →
  1 ≤ bytesPerPixel ≤ 4 →
  image.pixelBuffer bytesPerPixel r
  = Done (replicate (Z.to_nat (bytesPerPixel * image.Dx r * image.Dy r)) 0).
Proof.
  intros Hw Hh [H64 H63] Hb. unfold image.pixelBuffer.
  change (2 ^ 64) with 18446744073709551616 in *.
  change (2 ^ 63) with 9223372036854775808 in *.
  destruct (image.Dx r <? 0) eqn:E1; [lia|]. destruct (image.Dy r <? 0) eqn:E2; [lia|].
  destruct (18446744073709551616 <=? bytesPerPixel * image.Dx r) eqn:E3; [nia|].
  destruct (9223372036854775808 <=? bytesPerPixel * image.Dx r * image.Dy r) eqn:E4; [nia|].
  reflexivity.
Qed.

Lemma row_major_In (r : image.Rectangle) (j : Z) :
  0 ≤ j < image.Dx r * image.Dy r → 0 ≤ image.Dy r →
  image.In (image.X (image.Min r) + j mod image.Dx r)
           (image.Y (image.Min r) + j / image.Dx r) r = true.
Proof.
  intros Hj Hh. apply In_spec. unfold image.Dx, image.Dy in *.
  set (w := image.X (image.Max r) - image.X (image.Min r)) in *.
  set (h := image.Y (image.Max r) - image.Y (image.Min r)) in *.
  assert (0 < w) by nia.
  pose proof (Z.mod_pos_bound j w ltac:(lia)).
  assert (0 ≤ j / w) by (apply Z.div_pos; lia).
  assert (j / w < h) by (apply Z.div_lt_upper_bound; lia).
  lia.
Qed.

(** A raster is well formed when every pixel inside its bounds is stored and
    holds a byte. *)
Definition Gray_wf (p : image.Gray) : Prop :=
  0 ≤ image.Dx (image.Gray_Rect p) ∧ 0 ≤ image.Dy (image.Gray_Rect p) ∧
  image.fits (image.Gray_Rect p) ∧
  ∀ x y, image.In x y (image.Gray_Rect p) = true →
    ∃ b, image.index (image.Gray_Pix p) (image.Gray_PixOffset p x y) = Done b ∧ is_uint8 b.

(** The gray level read at [(x, y)]. *)
Definition Gray_pixel (p : image.Gray) (x y : Z) : Z :=
  match image.GrayAt p x y with Done c => color.Y c | Abort _ => 0 end.

(** The raster of bounds [r] whose pixel at [(x, y)] is [v x y]. *)
Definition Gray_tabulate (r : image.Rectangle) (v : Z → Z → Z) : image.Gray :=
  image.mkGray
    ((λ j, v (image.X (image.Min r) + j mod image.Dx r)
           (image.Y (image.Min r) + j / image.Dx r))
       <$> seqZ 0 (image.Dx r * image.Dy r))
    (image.Dx r) r.

(** Two rasters show the same picture. *)
Definition Gray_same (p q : image.Gray) : Prop :=
  image.Gray_Bounds p = image.Gray_Bounds q ∧
  ∀ x y, image.GrayAt p x y = image.GrayAt q x y.

Lemma GrayAt_outside (p : image.Gray) (x y : Z) :
  image.In x y (image.Gray_Rect p) = false →
  image.GrayAt p x y = Done (color.mkGray 0).
Proof. intros H. unfold image.GrayAt. now rewrite H. Qed.

Lemma GrayAt_wf (p : image.Gray) (x y : Z) :
  Gray_wf p →
  image.GrayAt p x y = Done (color.mkGray (Gray_pixel p x y)) ∧
  is_uint8 (Gray_pixel p x y).
Proof.
  intros (_ & _ & _ & Hpix). unfold Gray_pixel, image.GrayAt.
  destruct (image.In x y (image.Gray_Rect p)) eqn:Hin; cbn.
  - destruct (Hpix x y Hin) as (b & -> & Hb). cbn. split; [reflexivity|exact Hb].
  - split; [reflexivity|]. unfold is_uint8. lia.
Qed.

Lemma Gray_Y_At (p : image.Gray) (x y : Z) :
  Gray_wf p → color.Y <$> image.GrayAt p x y = Done (Gray_pixel p x y).
Proof. intros H. destruct (GrayAt_wf p x y H) as [-> _]. reflexivity. Qed.

Lemma Gray_pixel_outside (p : image.Gray) (x y : Z) :
  image.In x y (image.Gray_Rect p) = false → Gray_pixel p x y = 0.
Proof. intros H. unfold Gray_pixel. now rewrite GrayAt_outside. Qed.

Lemma Gray_tabulate_index (r : image.Rectangle) (v : Z → Z → Z) (x y : Z) :
  image.In x y r = true →
  image.index (image.Gray_Pix (Gray_tabulate r v))
    (image.Gray_PixOffset (Gray_tabulate r v) x y) = Done (v x y).
Proof.
  intros Hin. apply In_spec in Hin.
  unfold image.Gray_PixOffset, image.index. cbn [Gray_tabulate image.Gray_Rect
    image.Gray_Stride image.Gray_Pix]. unfold image.Dx, image.Dy in *.
  set (x0 := image.X (image.Min r)) in *. set (w := image.X (image.Max r) - x0) in *.
  set (y0 := image.Y (image.Min r)) in *. set (h := image.Y (image.Max r) - y0) in *.
  set (j := (y - y0) * w + (x - x0) * 1).
  assert (Hj : 0 ≤ j < w * h) by (subst j; nia).
  destruct (j <? 0) eqn:Hneg; [lia|].
  rewrite list_lookup_fmap, lookup_seqZ_lt by lia. cbn.
  rewrite Z2Nat.id by lia.
  destruct (row_major w (x - x0) (y - y0)) as [Hm Hd]; [lia|].
  rewrite Z.add_0_l. subst j. rewrite Z.mul_1_r, Hm, Hd. do 2 f_equal; lia.
Qed.

Lemma Gray_tabulate_At (r : image.Rectangle) (v : Z → Z → Z) (x y : Z) :
  image.In x y r = true →
  image.GrayAt (Gray_tabulate r v) x y = Done (color.mkGray (v x y)).
Proof.
  intros Hin. unfold image.GrayAt. cbn [Gray_tabulate image.Gray_Rect]. rewrite Hin. cbn [negb].
  change (image.mkGray _ (image.Dx r) r) with (Gray_tabulate r v).
  now rewrite Gray_tabulate_index.
Qed.

Lemma Gray_tabulate_pixel (r : image.Rectangle) (v : Z → Z → Z) (x y : Z) :
  image.In x y r = true → Gray_pixel (Gray_tabulate r v) x y = v x y.
Proof. intros Hin. unfold Gray_pixel. now rewrite Gray_tabulate_At. Qed.

Lemma Gray_tabulate_wf (r : image.Rectangle) (v : Z → Z → Z) :
  0 ≤ image.Dx r → 0 ≤ image.Dy r → image.fits r →
  (∀ x y, image.In x y r = true → is_uint8 (v x y)) →
  Gray_wf (Gray_tabulate r v).
Proof.
  intros Hw Hh Hsz Hv. split; [exact Hw|]. split; [exact Hh|]. split; [exact Hsz|].
  intros x y Hin. exists (v x y). split; [now apply Gray_tabulate_index|now apply Hv].
Qed.

Lemma Gray_tabulate_ext (r : image.Rectangle) (v1 v2 : Z → Z → Z) :
  0 ≤ image.Dy r →
  (∀ x y, image.In x y r = true → v1 x y = v2 x y) →
  Gray_tabulate r v1 = Gray_tabulate r v2.
Proof.
  intros Hh Hv. unfold Gray_tabulate. f_equal.
  apply list_fmap_ext. intros i j Hj. apply lookup_seqZ in Hj as [-> Hlt].
  apply Hv, row_major_In; lia.
Qed.

(** The scan that sets every pixel of a fresh raster builds the tabulated
    raster. *)
Lemma Gray_loops (r : image.Rectangle) (v : Z → Z → Z)
    (body : Z → Z → image.Gray → outcome image.Gray) :
  0 ≤ image.Dx r → 0 ≤ image.Dy r → image.fits r →
  (∀ x y g, image.In x y r = true →
     body y x g = image.Gray_Set g x y (color.mkGray (v x y))) →
  (g ← image.NewGray r;
   for_loop (image.Y (image.Min r)) (image.Y (image.Max r)) (λ y g,
     for_loop (image.X (image.Min r)) (image.X (image.Max r)) (λ x g,
       body y x g) g) g) = Done (Gray_tabulate r v).
Proof.
  intros Hw Hh Hsz Hbody.
  set (val := λ j, v (image.X (image.Min r) + j mod image.Dx r)
                     (image.Y (image.Min r) + j / image.Dx r)).
  set (P := λ (g : image.Gray) (k : Z),
    image.Gray_Rect g = r ∧ image.Gray_Stride g = image.Dx r ∧
    length (image.Gray_Pix g) = Z.to_nat (image.Dx r * image.Dy r) ∧
    ∀ j, 0 ≤ j < k → image.Gray_Pix g !! Z.to_nat j = Some (val j)).
  unfold image.NewGray. rewrite pixelBuffer_fits by (assumption || lia).
  cbn [mbind outcome_bind mret outcome_ret].
  match goal with |- for_loop _ _ _ ?g0 = _ =>
    destruct (raster_loops r P body g0 Hw Hh) as (g' & Hrun & Hg') end.
  - intros x y g Hin (HR & HS & HL & Hpix). rewrite (Hbody x y g Hin).
    pose proof Hin as Hin'. apply In_spec in Hin'.
    unfold image.Gray_Set, image.assign, image.Gray_PixOffset.
    rewrite HR, HS, Hin. cbn [negb]. rewrite Z.mul_1_r.
    set (k := (y - image.Y (image.Min r)) * image.Dx r + (x - image.X (image.Min r))).
    assert (Hk : 0 ≤ k < image.Dx r * image.Dy r).
    { subst k. unfold image.Dx, image.Dy in *. nia. }
    rewrite HL, Z2Nat.id by lia.
    destruct (0 <=? k) eqn:E3; [|lia]. destruct (k <? image.Dx r * image.Dy r) eqn:E4; [|lia].
    cbn [andb mbind outcome_bind mret outcome_ret color.Y].
    eexists. split; [reflexivity|]. unfold P. cbn [image.Gray_Rect image.Gray_Stride image.Gray_Pix].
    split; [reflexivity|]. split; [reflexivity|]. split; [now rewrite length_insert|].
    intros j Hj. destruct (decide (j = k)) as [->|Hne].
    + rewrite list_lookup_insert_eq by lia. f_equal. unfold val, k.
      destruct (row_major (image.Dx r) (x - image.X (image.Min r)) (y - image.Y (image.Min r)))
        as [-> ->]; [unfold image.Dx; lia|]. f_equal; lia.
    + rewrite list_lookup_insert_ne by lia. apply Hpix. lia.
  - unfold P. cbn [image.Gray_Rect image.Gray_Stride image.Gray_Pix].
    split; [reflexivity|]. split; [lia|]. split; [rewrite length_replicate; f_equal; lia|].
    intros j Hj. lia.
  - rewrite Hrun. f_equal. destruct Hg' as (HR & HS & HL & Hpix).
    destruct g' as [pix stride rect]. cbn in HR, HS, HL, Hpix. subst rect stride.
    unfold Gray_tabulate. f_equal.
    apply list_eq. intros i. rewrite list_lookup_fmap.
    destruct (decide (Z.of_nat i < image.Dx r * image.Dy r)) as [Hlt|Hge].
    + rewrite lookup_seqZ_lt by lia. cbn. rewrite <- (Nat2Z.id i) at 1.
      rewrite Hpix by lia. reflexivity.
    + rewrite lookup_seqZ_ge by lia. cbn. apply lookup_ge_None_2. lia.
Qed.

(** ** What each stage computes *)

(** [clamp8] as the specification writes it. *)
Definition clamp8 (x : Z) : Z := Z.max 0 (Z.min 255 x).

Lemma clamp_clamp8 (x : Z) : clamp x 0 255 = clamp8 x.
Proof.
  unfold clamp, clamp8.
  destruct (x <? 0) eqn:E1; [lia|]. destruct (255 <? x) eqn:E2; lia.
Qed.

Lemma int_small (z : Z) :
  - 9223372036854775808 ≤ z < 9223372036854775808 → int z = z.
Proof.
  intros H. unfold int. change (2 ^ 63) with 9223372036854775808.
  change (2 ^ 64) with 18446744073709551616.
  rewrite Z.mod_small; lia.
Qed.

Lemma uint8_small (z : Z) : is_uint8 z → uint8 z = z.
Proof. intros H. unfold uint8. apply Z.mod_small. unfold is_uint8 in H. lia. Qed.

Lemma clamp8_uint8 (x : Z) : is_uint8 (clamp8 x).
Proof. unfold clamp8, is_uint8. lia. Qed.

(** A property of bytes checked on the 256 of them. *)
Lemma uint8_cases (P : Z → bool) :
  forallb P (seqZ 0 256) = true → ∀ b, is_uint8 b → P b = true.
Proof.
  intros Hall b Hb. rewrite forallb_forall in Hall. apply Hall.
  apply list_elem_of_In, elem_of_seqZ. unfold is_uint8 in Hb. lia.
Qed.

Ltac stage_by_loops f :=
  cbv zeta; unfold image.Gray_Bounds;
  apply Gray_loops with (v := f); [assumption|assumption|assumption|].

Lemma Invert_spec (img : image.Gray) :
  Gray_wf img →
  Invert img = Done (Gray_tabulate (image.Gray_Rect img) (λ x y, 255 - Gray_pixel img x y)).
Proof.
  intros Hwf. pose proof Hwf as (Hw & Hh & Hsz & _).
  rewrite <- (Gray_tabulate_ext _ (λ x y, uint8 (255 - Gray_pixel img x y))).
  - unfold Invert. stage_by_loops (λ x y, uint8 (255 - Gray_pixel img x y)).
    intros x y g Hin. now rewrite Gray_Y_At.
  - assumption.
  - intros x y _. destruct (GrayAt_wf img x y Hwf) as [_ Hb].
    apply uint8_small. unfold is_uint8 in *. lia.
Qed.

Lemma LinearDodgeBlend_spec (imgX imgY : image.Gray) :
  Gray_wf imgX → Gray_wf imgY →
  LinearDodgeBlend imgX imgY =
  Done (Gray_tabulate (image.Gray_Rect imgX)
          (λ x y, clamp8 (Gray_pixel imgX x y + Gray_pixel imgY x y))).
Proof.
  intros HX HY. pose proof HX as (Hw & Hh & Hsz & _).
  rewrite <- (Gray_tabulate_ext _
    (λ x y, uint8 (clamp (int (int (Gray_pixel imgX x y) + int (Gray_pixel imgY x y))) 0 255))).
  - unfold LinearDodgeBlend.
    stage_by_loops (λ x y, uint8 (clamp (int (int (Gray_pixel imgX x y) + int (Gray_pixel imgY x y))) 0 255)).
    intros x y g Hin. now rewrite !Gray_Y_At.
  - assumption.
  - intros x y _. destruct (GrayAt_wf imgX x y HX) as [_ Ha].
    destruct (GrayAt_wf imgY x y HY) as [_ Hb]. unfold is_uint8 in *.
    rewrite (int_small (Gray_pixel imgX x y)), (int_small (Gray_pixel imgY x y)) by lia.
    rewrite int_small by lia. rewrite clamp_clamp8. apply uint8_small, clamp8_uint8.
Qed.

(** The pixel of DivideBlend, [x] the divisor and [y] the dividend. *)
Definition divide8 (x y : Z) : Z :=
  if x =? 0 then 255 else clamp8 ((y * 255) ÷ x).

Lemma divide8_uint8 (x y : Z) : is_uint8 (divide8 x y).
Proof. unfold divide8. destruct (x =? 0); [unfold is_uint8; lia|apply clamp8_uint8]. Qed.

Lemma DivideBlend_spec (imgX imgY : image.Gray) :
  Gray_wf imgX → Gray_wf imgY →
  DivideBlend imgX imgY =
  Done (Gray_tabulate (image.Gray_Rect imgX)
          (λ x y, divide8 (Gray_pixel imgX x y) (Gray_pixel imgY x y))).
Proof.
  intros HX HY. pose proof HX as (Hw & Hh & Hsz & _).
  rewrite <- (Gray_tabulate_ext _
    (λ x y, if Gray_pixel imgX x y =? 0 then 255
            else uint8 (clamp (int (int (int (Gray_pixel imgY x y) * 255)
                                    ÷ int (Gray_pixel imgX x y))) 0 255))).
  - unfold DivideBlend.
    stage_by_loops (λ x y, if Gray_pixel imgX x y =? 0 then 255
            else uint8 (clamp (int (int (int (Gray_pixel imgY x y) * 255)
                                    ÷ int (Gray_pixel imgX x y))) 0 255)).
    intros x y g Hin. now rewrite !Gray_Y_At.
  - assumption.
  - intros x y _. destruct (GrayAt_wf imgX x y HX) as [_ Ha].
    destruct (GrayAt_wf imgY x y HY) as [_ Hb]. unfold is_uint8 in *.
    unfold divide8. destruct (Gray_pixel imgX x y =? 0) eqn:E; [reflexivity|].
    apply Z.eqb_neq in E.
    rewrite (int_small (Gray_pixel imgY x y)), (int_small (Gray_pixel imgX x y)) by lia.
    rewrite (int_small (_ * 255)) by lia.
    assert (0 ≤ (Gray_pixel imgY x y * 255) ÷ Gray_pixel imgX x y ≤ Gray_pixel imgY x y * 255).
    { rewrite Z.quot_div_nonneg by lia. split; [apply Z.div_pos; lia|].
      apply Z.div_le_upper_bound; nia. }
    rewrite int_small by lia. rewrite clamp_clamp8. apply uint8_small, clamp8_uint8.
Qed.

Lemma AdjustLightness_spec (img : image.Gray) (ratio : float) (f : Z → Z) :
  (∀ b, is_uint8 b → AdjustLightness_pixel b ratio = Done (f b)) →
  Gray_wf img →
  AdjustLightness img ratio =
  Done (Gray_tabulate (image.Gray_Rect img) (λ x y, f (Gray_pixel img x y))).
Proof.
  intros Hf Hwf. pose proof Hwf as (Hw & Hh & Hsz & _).
  unfold AdjustLightness. stage_by_loops (λ x y, f (Gray_pixel img x y)).
  intros x y g Hin. rewrite Gray_Y_At by assumption. cbn [mbind outcome_bind].
  destruct (GrayAt_wf img x y Hwf) as [_ Hb]. now rewrite (Hf _ Hb).
Qed.

(** ** NRGBA rasters as functions of the coordinates *)

Definition channel (c : color.NRGBA) (i : Z) : Z :=
  if i =? 0 then color.R c else if i =? 1 then color.G c
  else if i =? 2 then color.B c else color.A c.

(** The raster of bounds [r] whose pixel at [(x, y)] is [v x y]. *)
Definition NRGBA_tabulate (r : image.Rectangle) (v : Z → Z → color.NRGBA) : image.NRGBA :=
  image.mkNRGBA
    ((λ i, channel (v (image.X (image.Min r) + (i / 4) mod image.Dx r)
                      (image.Y (image.Min r) + (i / 4) / image.Dx r)) (i mod 4))
       <$> seqZ 0 (4 * (image.Dx r * image.Dy r)))
    (4 * image.Dx r) r.

Lemma NRGBA_tabulate_lookup (r : image.Rectangle) (v : Z → Z → color.NRGBA) (x y c : Z) :
  image.In x y r = true → 0 ≤ c < 4 →
  image.index (image.NRGBA_Pix (NRGBA_tabulate r v))
    (image.NRGBA_PixOffset (NRGBA_tabulate r v) x y + c) = Done (channel (v x y) c).
Proof.
  intros Hin Hc. apply In_spec in Hin.
  unfold image.NRGBA_PixOffset, image.index. cbn [NRGBA_tabulate image.NRGBA_Rect
    image.NRGBA_Stride image.NRGBA_Pix]. unfold image.Dx, image.Dy in *.
  set (x0 := image.X (image.Min r)) in *. set (w := image.X (image.Max r) - x0) in *.
  set (y0 := image.Y (image.Min r)) in *. set (h := image.Y (image.Max r) - y0) in *.
  set (k := (y - y0) * w + (x - x0)).
  replace ((y - y0) * (4 * w) + (x - x0) * 4 + c) with (k * 4 + c) by (subst k; lia).
  assert (Hk : 0 ≤ k < w * h) by (subst k; nia).
  destruct (k * 4 + c <? 0) eqn:Hneg; [lia|].
  rewrite list_lookup_fmap, lookup_seqZ_lt by lia. cbn [fmap option_fmap option_map].
  rewrite Z2Nat.id, Z.add_0_l by lia.
  destruct (row_major 4 c k Hc) as [-> ->].
  destruct (row_major w (x - x0) (y - y0)) as [Hm Hd]; [lia|].
  subst k. rewrite Hm, Hd. do 3 f_equal; lia.
Qed.

Lemma NRGBA_tabulate_At (r : image.Rectangle) (v : Z → Z → color.NRGBA) (x y : Z) :
  image.In x y r = true →
  image.NRGBAAt (NRGBA_tabulate r v) x y = Done (v x y).
Proof.
  intros Hin. pose proof Hin as Hin'. apply In_spec in Hin'.
  pose proof (NRGBA_tabulate_lookup r v x y 0 Hin ltac:(lia)) as H0.
  pose proof (NRGBA_tabulate_lookup r v x y 1 Hin ltac:(lia)) as H1.
  pose proof (NRGBA_tabulate_lookup r v x y 2 Hin ltac:(lia)) as H2.
  pose proof (NRGBA_tabulate_lookup r v x y 3 Hin ltac:(lia)) as H3.
  rewrite Z.add_0_r in H0.
  unfold image.NRGBAAt. cbn [NRGBA_tabulate image.NRGBA_Rect]. rewrite Hin. cbn [negb].
  change (image.mkNRGBA _ (4 * image.Dx r) r) with (NRGBA_tabulate r v). cbv zeta.
  rewrite H0, H1, H2, H3. unfold image.slice4.
  cbn [NRGBA_tabulate image.NRGBA_Pix]. rewrite length_fmap, length_seqZ.
  unfold image.NRGBA_PixOffset. cbn [NRGBA_tabulate image.NRGBA_Rect image.NRGBA_Stride].
  unfold image.Dx, image.Dy in *.
  set (j := (y - image.Y (image.Min r)) * (4 * (image.X (image.Max r) - image.X (image.Min r)))
            + (x - image.X (image.Min r)) * 4).
  assert (0 ≤ j ∧ j + 4 ≤ 4 * ((image.X (image.Max r) - image.X (image.Min r))
                               * (image.Y (image.Max r) - image.Y (image.Min r))))
    as [Hj0 Hj1] by (subst j; nia).
  clearbody j. rewrite Z2Nat.id by lia.
  rewrite (proj2 (Z.leb_le _ _) Hj0), (proj2 (Z.leb_le _ _) Hj1).
  cbn. now destruct (v x y).
Qed.

(** The scan that sets every pixel of a fresh NRGBA raster builds the
    tabulated raster. *)
Lemma NRGBA_loops (r : image.Rectangle) (v : Z → Z → color.NRGBA)
    (body : Z → Z → image.NRGBA → outcome image.NRGBA) :
  0 ≤ image.Dx r → 0 ≤ image.Dy r → image.fits r →
  (∀ x y g, image.In x y r = true → body y x g = image.NRGBA_Set g x y (v x y)) →
  (g ← image.NewNRGBA r;
   for_loop (image.Y (image.Min r)) (image.Y (image.Max r)) (λ y g,
     for_loop (image.X (image.Min r)) (image.X (image.Max r)) (λ x g,
       body y x g) g) g) = Done (NRGBA_tabulate r v).
Proof.
  intros Hw Hh Hsz Hbody.
  set (val := λ i, channel (v (image.X (image.Min r) + (i / 4) mod image.Dx r)
                              (image.Y (image.Min r) + (i / 4) / image.Dx r)) (i mod 4)).
  set (P := λ (g : image.NRGBA) (k : Z),
    image.NRGBA_Rect g = r ∧ image.NRGBA_Stride g = 4 * image.Dx r ∧
    length (image.NRGBA_Pix g) = Z.to_nat (4 * (image.Dx r * image.Dy r)) ∧
    ∀ i, 0 ≤ i < 4 * k → image.NRGBA_Pix g !! Z.to_nat i = Some (val i)).
  unfold image.NewNRGBA. rewrite pixelBuffer_fits by (assumption || lia).
  cbn [mbind outcome_bind mret outcome_ret].
  match goal with |- for_loop _ _ _ ?g0 = _ =>
    destruct (raster_loops r P body g0 Hw Hh) as (g' & Hrun & Hg') end.
  - intros x y g Hin (HR & HS & HL & Hpix). rewrite (Hbody x y g Hin).
    pose proof Hin as Hin'. apply In_spec in Hin'.
    unfold image.NRGBA_Set, image.assign, image.slice4, image.NRGBA_PixOffset.
    rewrite HR, HS, Hin. cbn [negb]. cbv zeta.
    set (k := (y - image.Y (image.Min r)) * image.Dx r + (x - image.X (image.Min r))).
    replace ((y - image.Y (image.Min r)) * (4 * image.Dx r) + (x - image.X (image.Min r)) * 4)
      with (4 * k) by (subst k; lia).
    assert (Hk : 0 ≤ k < image.Dx r * image.Dy r).
    { subst k. unfold image.Dx, image.Dy in *. nia. }
    rewrite HL, Z2Nat.id by lia.
    destruct (0 <=? 4 * k) eqn:E3; [|lia].
    destruct (4 * k + 4 <=? 4 * (image.Dx r * image.Dy r)) eqn:E4; [|lia].
    destruct (4 * k <? 4 * (image.Dx r * image.Dy r)) eqn:E5; [|lia].
    cbn [andb mbind outcome_bind mret outcome_ret].
    rewrite length_insert, HL, Z2Nat.id by lia.
    destruct (0 <=? 4 * k + 1) eqn:E6; [|lia].
    destruct (4 * k + 1 <? 4 * (image.Dx r * image.Dy r)) eqn:E7; [|lia].
    cbn [andb mbind outcome_bind mret outcome_ret].
    rewrite !length_insert, HL, Z2Nat.id by lia.
    destruct (0 <=? 4 * k + 2) eqn:E8; [|lia].
    destruct (4 * k + 2 <? 4 * (image.Dx r * image.Dy r)) eqn:E9; [|lia].
    cbn [andb mbind outcome_bind mret outcome_ret].
    rewrite !length_insert, HL, Z2Nat.id by lia.
    destruct (0 <=? 4 * k + 3) eqn:E10; [|lia].
    destruct (4 * k + 3 <? 4 * (image.Dx r * image.Dy r)) eqn:E11; [|lia].
    cbn [andb mbind outcome_bind mret outcome_ret].
    eexists. split; [reflexivity|]. unfold P.
    cbn [image.NRGBA_Rect image.NRGBA_Stride image.NRGBA_Pix].
    split; [reflexivity|]. split; [reflexivity|]. split; [now rewrite !length_insert|].
    intros i Hi.
    assert (Hval : ∀ c, 0 ≤ c < 4 → val (4 * k + c) = channel (v x y) c).
    { intros c Hc. unfold val. replace (4 * k + c) with (k * 4 + c) by lia.
      destruct (row_major 4 c k Hc) as [-> ->]. unfold k.
      destruct (row_major (image.Dx r) (x - image.X (image.Min r)) (y - image.Y (image.Min r)))
        as [-> ->]; [unfold image.Dx; lia|]. do 2 f_equal; lia. }
    destruct (decide (i = 4 * k + 3)) as [->|N3].
    { rewrite list_lookup_insert_eq by (rewrite !length_insert; lia).
      now rewrite Hval by lia. }
    rewrite list_lookup_insert_ne by lia.
    destruct (decide (i = 4 * k + 2)) as [->|N2].
    { rewrite list_lookup_insert_eq by (rewrite !length_insert; lia).
      now rewrite Hval by lia. }
    rewrite list_lookup_insert_ne by lia.
    destruct (decide (i = 4 * k + 1)) as [->|N1].
    { rewrite list_lookup_insert_eq by (rewrite !length_insert; lia).
      now rewrite Hval by lia. }
    rewrite list_lookup_insert_ne by lia.
    destruct (decide (i = 4 * k)) as [->|N0].
    { rewrite list_lookup_insert_eq by lia.
      rewrite <- (Z.add_0_r (4 * k)). now rewrite Hval by lia. }
    rewrite list_lookup_insert_ne by lia. apply Hpix. lia.
  - unfold P. cbn [image.NRGBA_Rect image.NRGBA_Stride image.NRGBA_Pix].
    split; [reflexivity|]. split; [lia|]. split; [rewrite length_replicate; f_equal; lia|].
    intros j Hj. lia.
  - rewrite Hrun. f_equal. destruct Hg' as (HR & HS & HL & Hpix).
    destruct g' as [pix stride rect]. cbn in HR, HS, HL, Hpix. subst rect stride.
    unfold NRGBA_tabulate. f_equal.
    apply list_eq. intros i. rewrite list_lookup_fmap.
    destruct (decide (Z.of_nat i < 4 * (image.Dx r * image.Dy r))) as [Hlt|Hge].
    + rewrite lookup_seqZ_lt by lia. cbn. rewrite <- (Nat2Z.id i) at 1.
      rewrite Hpix by lia. reflexivity.
    + rewrite lookup_seqZ_ge by lia. cbn. apply lookup_ge_None_2. lia.
Qed.

Lemma AddMask_spec (imgX imgY : image.Gray) :
  Gray_wf imgX → Gray_wf imgY →
  AddMask imgX imgY =
  Done (NRGBA_tabulate (image.Gray_Rect imgX)
          (λ x y, color.mkNRGBA (Gray_pixel imgX x y) (Gray_pixel imgX x y)
                                (Gray_pixel imgX x y) (Gray_pixel imgY x y))).
Proof.
  intros HX HY. pose proof HX as (Hw & Hh & Hsz & _).
  unfold AddMask. cbv zeta. unfold image.Gray_Bounds.
  apply NRGBA_loops with
    (v := λ x y, color.mkNRGBA (Gray_pixel imgX x y) (Gray_pixel imgX x y)
                               (Gray_pixel imgX x y) (Gray_pixel imgY x y));
    [assumption|assumption|assumption|].
  intros x y g Hin. now rewrite !Gray_Y_At.
Qed.

(** ** Images behind the interface *)

(** Every pixel inside the bounds has a colour, with channels on 16 bits. *)
Definition Image_wf {I} `{image.Image I} (img : I) : Prop :=
  0 ≤ image.Dx (image.Bounds img) ∧ 0 ≤ image.Dy (image.Bounds img) ∧
  image.fits (image.Bounds img) ∧
  ∀ x y, image.In x y (image.Bounds img) = true →
    ∃ r g b a, image.At img x y = Done (color.mkColor (r, g, b, a)) ∧
               is_uint16 r ∧ is_uint16 g ∧ is_uint16 b.

(** The 16-bit red, green and blue read at [(x, y)]. *)
Definition Image_rgb {I} `{image.Image I} (img : I) (x y : Z) : Z * Z * Z :=
  match image.At img x y with
  | Done c => let '(r, g, b, _) := color.RGBA_method c in (r, g, b)
  | Abort _ => (0, 0, 0)
  end.

(** The gray level of Desaturate for 16-bit channels [r], [g], [b]. *)
Definition lightness (r g b : Z) : Z :=
  (Z.max (Z.max (Z.shiftr r 8) (Z.shiftr g 8)) (Z.shiftr b 8)
   + Z.min (Z.min (Z.shiftr r 8) (Z.shiftr g 8)) (Z.shiftr b 8)) / 2.

Lemma shiftr8_uint16 (z : Z) : is_uint16 z → is_uint8 (Z.shiftr z 8).
Proof.
  unfold is_uint16, is_uint8. intros H. rewrite Z.shiftr_div_pow2 by lia.
  change (2 ^ 8) with 256. split; [apply Z.div_pos; lia|].
  apply Z.div_lt_upper_bound; lia.
Qed.

Lemma shiftr8_max (a b : Z) : Z.shiftr (max a b) 8 = Z.max (Z.shiftr a 8) (Z.shiftr b 8).
Proof.
  unfold max. rewrite !Z.shiftr_div_pow2 by lia. change (2 ^ 8) with 256.
  destruct (b <? a) eqn:E.
  - apply Z.ltb_lt in E. pose proof (Z.div_le_mono b a 256 ltac:(lia) ltac:(lia)). lia.
  - apply Z.ltb_ge in E. pose proof (Z.div_le_mono a b 256 ltac:(lia) ltac:(lia)). lia.
Qed.

Lemma shiftr8_min (a b : Z) : Z.shiftr (min a b) 8 = Z.min (Z.shiftr a 8) (Z.shiftr b 8).
Proof.
  unfold min. rewrite !Z.shiftr_div_pow2 by lia. change (2 ^ 8) with 256.
  destruct (a <? b) eqn:E.
  - apply Z.ltb_lt in E. pose proof (Z.div_le_mono a b 256 ltac:(lia) ltac:(lia)). lia.
  - apply Z.ltb_ge in E. pose proof (Z.div_le_mono b a 256 ltac:(lia) ltac:(lia)). lia.
Qed.

Lemma max_uint16 (a b : Z) : is_uint16 a → is_uint16 b → is_uint16 (max a b).
Proof. unfold max. now destruct (b <? a). Qed.

Lemma min_uint16 (a b : Z) : is_uint16 a → is_uint16 b → is_uint16 (min a b).
Proof. unfold min. now destruct (a <? b). Qed.

Lemma uint32_small (z : Z) : 0 ≤ z < 65536 → uint32 z = z.
Proof. intros H. unfold uint32. change (2 ^ 32) with 4294967296. apply Z.mod_small. lia. Qed.

Lemma lightness_uint8 (r g b : Z) :
  is_uint16 r → is_uint16 g → is_uint16 b → is_uint8 (lightness r g b).
Proof.
  intros Hr Hg Hb. apply shiftr8_uint16 in Hr, Hg, Hb. unfold lightness, is_uint8 in *.
  split; [apply Z.div_pos; lia|]. apply Z.div_lt_upper_bound; lia.
Qed.

(** The pixel expression of Desaturate is the lightness of the high bytes. *)
Lemma Desaturate_pixel (r g b : Z) :
  is_uint16 r → is_uint16 g → is_uint16 b →
  uint8 (uint32 (Z.shiftr (uint32 (max (max r g) b)) 8
                 + Z.shiftr (uint32 (min (min r g) b)) 8) / 2) = lightness r g b.
Proof.
  intros Hr Hg Hb.
  pose proof (max_uint16 _ _ (max_uint16 _ _ Hr Hg) Hb) as Hmax.
  pose proof (min_uint16 _ _ (min_uint16 _ _ Hr Hg) Hb) as Hmin.
  rewrite (uint32_small (max _ _)), (uint32_small (min _ _)) by exact Hmax || exact Hmin.
  pose proof (shiftr8_uint16 _ Hmax) as Hmax8. pose proof (shiftr8_uint16 _ Hmin) as Hmin8.
  unfold is_uint8 in Hmax8, Hmin8.
  rewrite uint32_small by lia.
  rewrite !shiftr8_max, !shiftr8_min in *.
  apply uint8_small. now apply lightness_uint8.
Qed.

Lemma Desaturate_spec {I} `{image.Image I} (img : I) :
  Image_wf img →
  Desaturate img =
  Done (Gray_tabulate (image.Bounds img)
          (λ x y, let '(r, g, b) := Image_rgb img x y in lightness r g b)).
Proof.
  intros (Hw & Hh & Hsz & Hpix).
  rewrite <- (Gray_tabulate_ext _ (λ x y, let '(r, g, b) := Image_rgb img x y in
      uint8 (uint32 (Z.shiftr (uint32 (max (max r g) b)) 8
                     + Z.shiftr (uint32 (min (min r g) b)) 8) / 2))).
  - unfold Desaturate. cbv zeta.
    apply Gray_loops with (v := λ x y, let '(r, g, b) := Image_rgb img x y in
      uint8 (uint32 (Z.shiftr (uint32 (max (max r g) b)) 8
                     + Z.shiftr (uint32 (min (min r g) b)) 8) / 2));
      [assumption|assumption|assumption|].
    intros x y gr Hin. unfold Image_rgb.
    destruct (Hpix x y Hin) as (r & g & b & a & -> & _). reflexivity.
  - assumption.
  - intros x y Hin. unfold Image_rgb.
    destruct (Hpix x y Hin) as (r & g & b & a & -> & Hr & Hg & Hb). cbn.
    now apply Desaturate_pixel.
Qed.

(** *** RGBA rasters *)

Definition RGBA_wf (p : image.RGBA) : Prop :=
  0 ≤ image.Dx (image.RGBA_Rect p) ∧ 0 ≤ image.Dy (image.RGBA_Rect p) ∧
  image.fits (image.RGBA_Rect p) ∧
  image.RGBA_Stride p = 4 * image.Dx (image.RGBA_Rect p) ∧
  length (image.RGBA_Pix p)
    = Z.to_nat (4 * image.Dx (image.RGBA_Rect p) * image.Dy (image.RGBA_Rect p)) ∧
  Forall is_uint8 (image.RGBA_Pix p).

Lemma widen_uint16 (c : Z) : is_uint8 c → is_uint16 (color.widen c).
Proof.
  intros Hc. revert c Hc.
  assert (Hall : ∀ c, is_uint8 c →
    ((0 <=? color.widen c) && (color.widen c <? 65536)) = true).
  { apply uint8_cases. vm_compute. reflexivity. }
  intros c Hc. apply Hall in Hc. apply andb_true_iff in Hc as [H1 H2].
  unfold is_uint16. lia.
Qed.

Lemma index_Forall (P : Z → Prop) (pix : list Z) (i : Z) :
  Forall P pix → 0 ≤ i < Z.of_nat (length pix) →
  ∃ b, image.index pix i = Done b ∧ P b.
Proof.
  intros Hall Hi. unfold image.index. destruct (i <? 0) eqn:E; [lia|].
  destruct (lookup_lt_is_Some_2 pix (Z.to_nat i)) as [b Hb]; [lia|].
  rewrite Hb. exists b. split; [reflexivity|].
  rewrite Forall_forall in Hall. apply Hall.
  eapply list_elem_of_lookup_2. exact Hb.
Qed.

Lemma RGBA_Image_wf (p : image.RGBA) : RGBA_wf p → Image_wf p.
Proof.
  intros (Hw & Hh & Hsz & HS & HL & Hall).
  split; [exact Hw|]. split; [exact Hh|]. split; [exact Hsz|].
  intros x y Hin. cbn [image.At image.Bounds image.RGBA_Image] in *.
  unfold image.RGBA_Bounds in *. pose proof Hin as Hin'. apply In_spec in Hin'.
  unfold image.RGBAAt. rewrite Hin. cbn [negb]. cbv zeta.
  unfold image.slice4, image.RGBA_PixOffset. rewrite HS, HL.
  unfold image.Dx, image.Dy in *.
  set (w := image.X (image.Max (image.RGBA_Rect p)) - image.X (image.Min (image.RGBA_Rect p))) in *.
  set (h := image.Y (image.Max (image.RGBA_Rect p)) - image.Y (image.Min (image.RGBA_Rect p))) in *.
  set (j := (y - image.Y (image.Min (image.RGBA_Rect p))) * (4 * w)
            + (x - image.X (image.Min (image.RGBA_Rect p))) * 4).
  assert (0 ≤ j ∧ j + 4 ≤ 4 * w * h) as [Hj0 Hj1] by (subst j; nia).
  clearbody j. rewrite Z2Nat.id by nia.
  rewrite (proj2 (Z.leb_le _ _) Hj0), (proj2 (Z.leb_le _ _) Hj1).
  cbn [andb mbind outcome_bind].
  assert (Hlen : Z.of_nat (length (image.RGBA_Pix p)) = 4 * w * h) by (rewrite HL; nia).
  destruct (index_Forall _ _ j Hall) as (r & -> & Hr); [lia|].
  destruct (index_Forall _ _ (j + 1) Hall) as (g & -> & Hg); [lia|].
  destruct (index_Forall _ _ (j + 2) Hall) as (b & -> & Hb); [lia|].
  destruct (index_Forall _ _ (j + 3) Hall) as (a & -> & Ha); [lia|].
  cbn. exists (color.widen r), (color.widen g), (color.widen b), (color.widen a).
  split; [reflexivity|]. auto using widen_uint16.
Qed.

(** ** The lightness pixel at the ratios the program uses *)

Definition outcome_is (m : outcome Z) (z : Z) : bool :=
  match m with Done a => a =? z | Abort _ => false end.

Lemma outcome_is_Done (m : outcome Z) (z : Z) : outcome_is m z = true → m = Done z.
Proof. destruct m as [a|f]; cbn; [|discriminate]. intros H. apply Z.eqb_eq in H. now subst. Qed.

(** Ratio [+0.5]: [floor(Y/2 + 127.5)]. *)
Lemma AdjustLightness_pixel_lift (b : Z) :
  is_uint8 b → AdjustLightness_pixel b 0.5 = Done ((b + 255) / 2).
Proof.
  intros Hb. apply outcome_is_Done. revert b Hb.
  apply (uint8_cases (λ b, outcome_is (AdjustLightness_pixel b 0.5) ((b + 255) / 2))).
  vm_compute. reflexivity.
Qed.

(** Ratio [-0.5]: [floor(Y/2)]. *)
Lemma AdjustLightness_pixel_dim (b : Z) :
  is_uint8 b → AdjustLightness_pixel b (-0.5) = Done (b / 2).
Proof.
  intros Hb. apply outcome_is_Done. revert b Hb.
  apply (uint8_cases (λ b, outcome_is (AdjustLightness_pixel b (-0.5)) (b / 2))).
  vm_compute. reflexivity.
Qed.

(** Ratio [0]: the pixel is left as it is. *)
Lemma AdjustLightness_pixel_zero (b : Z) :
  is_uint8 b → AdjustLightness_pixel b 0 = Done b.
Proof.
  intros Hb. apply outcome_is_Done. revert b Hb.
  apply (uint8_cases (λ b, outcome_is (AdjustLightness_pixel b 0) b)).
  vm_compute. reflexivity.
Qed.

(** ** Rasters laid out in memory *)

(** A decidable layout check: rows of [Stride] bytes, all of them stored. *)
Definition Gray_ok (p : image.Gray) : bool :=
  (0 <=? image.Dx (image.Gray_Rect p)) && (0 <=? image.Dy (image.Gray_Rect p))
  && (4 * image.Dx (image.Gray_Rect p) <? 2 ^ 64)
  && (4 * image.Dx (image.Gray_Rect p) * image.Dy (image.Gray_Rect p) <? 2 ^ 63)
  && (image.Dx (image.Gray_Rect p) <=? image.Gray_Stride p)
  && (image.Gray_Stride p * image.Dy (image.Gray_Rect p) <=? Z.of_nat (length (image.Gray_Pix p)))
  && forallb (λ b, (0 <=? b) && (b <? 256)) (image.Gray_Pix p).

Lemma Gray_ok_wf (p : image.Gray) : Gray_ok p = true → Gray_wf p.
Proof.
  unfold Gray_ok. rewrite !andb_true_iff, !Z.leb_le, !Z.ltb_lt.
  intros ((((((Hw & Hh) & H64) & H63) & HS) & HL) & Hall).
  split; [exact Hw|]. split; [exact Hh|]. split; [split; assumption|].
  intros x y Hin. apply In_spec in Hin.
  apply index_Forall.
  - apply Forall_forall. intros b Hb. rewrite forallb_forall in Hall.
    apply list_elem_of_In, Hall in Hb. apply andb_true_iff in Hb. unfold is_uint8. lia.
  - unfold image.Gray_PixOffset, image.Dx, image.Dy in *. nia.
Qed.

Definition RGBA_ok (p : image.RGBA) : bool :=
  (0 <=? image.Dx (image.RGBA_Rect p)) && (0 <=? image.Dy (image.RGBA_Rect p))
  && (4 * image.Dx (image.RGBA_Rect p) <? 2 ^ 64)
  && (4 * image.Dx (image.RGBA_Rect p) * image.Dy (image.RGBA_Rect p) <? 2 ^ 63)
  && (image.RGBA_Stride p =? 4 * image.Dx (image.RGBA_Rect p))
  && (Z.of_nat (length (image.RGBA_Pix p))
      =? 4 * image.Dx (image.RGBA_Rect p) * image.Dy (image.RGBA_Rect p))
  && forallb (λ b, (0 <=? b) && (b <? 256)) (image.RGBA_Pix p).

Lemma RGBA_ok_wf (p : image.RGBA) : RGBA_ok p = true → RGBA_wf p.
Proof.
  unfold RGBA_ok. rewrite !andb_true_iff, !Z.leb_le, !Z.ltb_lt, !Z.eqb_eq.
  intros ((((((Hw & Hh) & H64) & H63) & HS) & HL) & Hall).
  split; [exact Hw|]. split; [exact Hh|]. split; [split; assumption|].
  split; [exact HS|]. split; [lia|].
  apply Forall_forall. intros b Hb. rewrite forallb_forall in Hall.
  apply list_elem_of_In, Hall in Hb. apply andb_true_iff in Hb. unfold is_uint8. lia.
Qed.

Lemma Gray_tabulate_same (G : image.Gray) :
  Gray_wf G → Gray_same (Gray_tabulate (image.Gray_Rect G) (Gray_pixel G)) G.
Proof.
  intros Hwf. split; [reflexivity|]. intros x y.
  destruct (image.In x y (image.Gray_Rect G)) eqn:Hin.
  - rewrite Gray_tabulate_At by assumption. symmetry. now apply GrayAt_wf.
  - now rewrite !GrayAt_outside.
Qed.

(** Sample rasters: 3 by 2 pixels at the origin, and 2 by 2 pixels elsewhere. *)
Definition sample_gray : image.Gray :=
  image.mkGray [0; 64; 128; 255; 7; 200] 3 (image.Rect 0 0 3 2).
Definition sample_gray' : image.Gray :=
  image.mkGray [255; 1; 130; 0; 99; 254] 3 (image.Rect 0 0 3 2).
Definition sample_white : image.Gray :=
  image.mkGray [255; 255; 255; 255; 255; 255] 3 (image.Rect 0 0 3 2).
Definition sample_shifted : image.Gray :=
  image.mkGray [10; 20; 30; 40] 2 (image.Rect 2 1 4 3).
Definition sample_rgba : image.RGBA :=
  image.mkRGBA [10; 200; 30; 255; 0; 0; 0; 255] 8 (image.Rect 0 0 2 1).

(** The 1 by 1 opaque raster holding the pixel [(r, g, b)]. *)
Definition pixel1 (r g b : Z) : image.RGBA :=
  image.mkRGBA [r; g; b; 255] 4 (image.Rect 0 0 1 1).

(** The resampler keeps the geometry of its destination and stores bytes. *)
Definition Scale_keeps_raster {Src}
    (Scale : image.RGBA → image.Rectangle → Src → image.Rectangle → image.RGBA) : Prop :=
  ∀ dst dr src sr, RGBA_wf dst →
    RGBA_wf (Scale dst dr src sr) ∧
    image.RGBA_Rect (Scale dst dr src sr) = image.RGBA_Rect dst.

(** ** The stages in sequence *)

Lemma Desaturate_wf {I} `{image.Image I} (img : I) :
  Image_wf img →
  ∃ G, Desaturate img = Done G ∧ Gray_wf G ∧ image.Gray_Rect G = image.Bounds img.
Proof.
  intros Hwf. eexists. split; [now apply Desaturate_spec|]. split; [|reflexivity].
  destruct Hwf as (Hw & Hh & Hsz & Hpix).
  apply Gray_tabulate_wf; [assumption|assumption|assumption|].
  intros x y Hin. unfold Image_rgb.
  destruct (Hpix x y Hin) as (r & g & b & a & -> & Hr & Hg & Hb). cbn.
  now apply lightness_uint8.
Qed.

Lemma AdjustLightness_wf (img : image.Gray) (ratio : float) (f : Z → Z) :
  (∀ b, is_uint8 b → AdjustLightness_pixel b ratio = Done (f b) ∧ is_uint8 (f b)) →
  Gray_wf img →
  ∃ G, AdjustLightness img ratio = Done G ∧ Gray_wf G ∧
       image.Gray_Rect G = image.Gray_Rect img.
Proof.
  intros Hf Hwf. eexists. split; [apply AdjustLightness_spec; [apply Hf|assumption]|].
  split; [|reflexivity]. apply Gray_tabulate_wf; [apply Hwf|apply Hwf|apply Hwf|].
  intros x y _. apply Hf. now apply GrayAt_wf.
Qed.

Lemma Invert_wf (img : image.Gray) :
  Gray_wf img →
  ∃ G, Invert img = Done G ∧ Gray_wf G ∧ image.Gray_Rect G = image.Gray_Rect img.
Proof.
  intros Hwf. eexists. split; [now apply Invert_spec|]. split; [|reflexivity].
  apply Gray_tabulate_wf; [apply Hwf|apply Hwf|apply Hwf|]. intros x y _.
  destruct (GrayAt_wf img x y Hwf) as [_ Hb]. unfold is_uint8 in *. lia.
Qed.

Lemma LinearDodgeBlend_wf (imgX imgY : image.Gray) :
  Gray_wf imgX → Gray_wf imgY →
  ∃ G, LinearDodgeBlend imgX imgY = Done G ∧ Gray_wf G ∧
       image.Gray_Rect G = image.Gray_Rect imgX.
Proof.
  intros HX HY. eexists. split; [now apply LinearDodgeBlend_spec|]. split; [|reflexivity].
  apply Gray_tabulate_wf; [apply HX|apply HX|apply HX|]. intros x y _. apply clamp8_uint8.
Qed.

Lemma DivideBlend_wf (imgX imgY : image.Gray) :
  Gray_wf imgX → Gray_wf imgY →
  ∃ G, DivideBlend imgX imgY = Done G ∧ Gray_wf G ∧
       image.Gray_Rect G = image.Gray_Rect imgX.
Proof.
  intros HX HY. eexists. split; [now apply DivideBlend_spec|]. split; [|reflexivity].
  apply Gray_tabulate_wf; [apply HX|apply HX|apply HX|]. intros x y _. apply divide8_uint8.
Qed.

(** On well-formed images the stages of Build run to the end. *)
Lemma Build_stages_returns {I} `{image.Image I} (imgA imgB : I) :
  Image_wf imgA → Image_wf imgB →
  ∃ out, Build_stages imgA imgB = Done out ∧
         image.NRGBA_Bounds out = image.Bounds imgA.
Proof.
  intros HA HB. unfold Build_stages.
  destruct (Desaturate_wf imgA HA) as (gA & -> & HgA & RA).
  destruct (Desaturate_wf imgB HB) as (gB & -> & HgB & RB).
  cbn [mbind outcome_bind].
  destruct (AdjustLightness_wf gA 0.5 (λ b, (b + 255) / 2)) as (lA & -> & HlA & RlA);
    [|assumption|].
  { intros b Hb. split; [now apply AdjustLightness_pixel_lift|].
    unfold is_uint8 in *. split; [apply Z.div_pos; lia|apply Z.div_lt_upper_bound; lia]. }
  cbn [mbind outcome_bind].
  destruct (Invert_wf lA HlA) as (iA & -> & HiA & RiA).
  destruct (AdjustLightness_wf gB (-0.5) (λ b, b / 2)) as (dB & -> & HdB & RdB);
    [|assumption|].
  { intros b Hb. split; [now apply AdjustLightness_pixel_dim|].
    unfold is_uint8 in *. split; [apply Z.div_pos; lia|apply Z.div_lt_upper_bound; lia]. }
  cbn [mbind outcome_bind].
  destruct (LinearDodgeBlend_wf iA dB HiA HdB) as (L & -> & HL & RL).
  cbn [mbind outcome_bind].
  destruct (DivideBlend_wf L dB HL HdB) as (D & -> & HD & RD).
  cbn [mbind outcome_bind].
  eexists. split; [now apply AddMask_spec|].
  cbn [image.NRGBA_Bounds NRGBA_tabulate image.NRGBA_Rect]. congruence.
Qed.

Lemma Rect_size (w h : Z) :
  image.Dx (image.Rect 0 0 w h) = Z.abs w ∧ image.Dy (image.Rect 0 0 w h) = Z.abs h.
Proof.
  unfold image.Rect, image.Dx, image.Dy.
  destruct (w <? 0) eqn:Ew, (h <? 0) eqn:Eh; cbn; lia.
Qed.

Lemma resize_wf {Src} `{!image.Image Src}
    (Scale : image.RGBA → image.Rectangle → Src → image.Rectangle → image.RGBA)
    (img : Src) (width height : Z) :
  Scale_keeps_raster Scale → image.fits (image.Rect 0 0 width height) →
  ∃ p, resize Scale img width height = Done p ∧ RGBA_wf p ∧
       image.RGBA_Rect p = image.Rect 0 0 width height.
Proof.
  intros HS Hfit. unfold resize, image.NewRGBA.
  destruct (Rect_size width height) as [Hw Hh].
  rewrite pixelBuffer_fits by (assumption || lia).
  cbn [mbind outcome_bind mret outcome_ret].
  match goal with |- context [Scale ?dst ?dr ?src ?sr] =>
    destruct (HS dst dr src sr) as [Hwf HR] end.
  - cbn [RGBA_wf image.RGBA_Rect image.RGBA_Stride image.RGBA_Pix]. unfold RGBA_wf.
    cbn [image.RGBA_Rect image.RGBA_Stride image.RGBA_Pix].
    split; [lia|]. split; [lia|]. split; [exact Hfit|]. split; [reflexivity|].
    split; [now rewrite length_replicate|].
    apply Forall_replicate. unfold is_uint8. lia.
  - eexists. split; [reflexivity|]. split; [exact Hwf|]. exact HR.
Qed.

(** * Binary64 arithmetic *)

(** ** Rounding to nearest even, on integers *)

(** Values are counted in units of [2^-fscale]; the exponent of the last
    place of a binary64 number of scaled value [v] is [ulp_exp v]. *)
Definition fscale : Z := 1126.
Definition ulp_min : Z := fscale - 1074.

Definition ulp_exp (v : Z) : Z := Z.max (Z.log2 v - 52) ulp_min.

Definition round_up (E q r : Z) : bool :=
  (2 ^ E <? 2 * r) || ((2 ^ E =? 2 * r) && Z.odd q).

Definition rnd_at (E v : Z) : Z :=
  (v / 2 ^ E + (if round_up E (v / 2 ^ E) (v mod 2 ^ E) then 1 else 0)) * 2 ^ E.

Definition rnd (v : Z) : Z := rnd_at (ulp_exp v) v.

Lemma ulp_exp_pos v : 52 ≤ ulp_exp v.
Proof. unfold ulp_exp, ulp_min, fscale. lia. Qed.

Lemma ulp_exp_mono v1 v2 : v1 ≤ v2 → ulp_exp v1 ≤ ulp_exp v2.
Proof. intros H. unfold ulp_exp. pose proof (Z.log2_le_mono v1 v2 H). lia. Qed.

Lemma rnd_at_bounds E v :
  0 ≤ E → v / 2 ^ E * 2 ^ E ≤ rnd_at E v ≤ (v / 2 ^ E + 1) * 2 ^ E.
Proof.
  intros HE. unfold rnd_at. assert (0 < 2 ^ E) by (apply Z.pow_pos_nonneg; lia).
  destruct (round_up _ _ _); nia.
Qed.

Lemma rnd_at_mono E v1 v2 : 0 ≤ E → v1 ≤ v2 → rnd_at E v1 ≤ rnd_at E v2.
Proof.
  intros HE Hv. assert (HP : 0 < 2 ^ E) by (apply Z.pow_pos_nonneg; lia).
  pose proof (Z.div_le_mono v1 v2 (2 ^ E) HP Hv) as Hq.
  pose proof (Z.div_mod v1 (2 ^ E) ltac:(lia)) as D1.
  pose proof (Z.div_mod v2 (2 ^ E) ltac:(lia)) as D2.
  pose proof (Z.mod_pos_bound v1 (2 ^ E) HP) as B1.
  pose proof (Z.mod_pos_bound v2 (2 ^ E) HP) as B2.
  destruct (Z.eq_dec (v1 / 2 ^ E) (v2 / 2 ^ E)) as [Heq|Hne].
  - unfold rnd_at, round_up. rewrite <- Heq.
    set (q := v1 / 2 ^ E) in *. set (r1 := v1 mod 2 ^ E) in *. set (r2 := v2 mod 2 ^ E) in *.
    assert (r1 ≤ r2) by nia.
    apply Z.mul_le_mono_nonneg_r; [lia|]. apply Z.add_le_mono_l.
    destruct (2 ^ E <? 2 * r1) eqn:A1, (2 ^ E <? 2 * r2) eqn:A2,
             (2 ^ E =? 2 * r1) eqn:A3, (2 ^ E =? 2 * r2) eqn:A4, (Z.odd q); cbn; lia.
  - pose proof (rnd_at_bounds E v1 HE). pose proof (rnd_at_bounds E v2 HE). nia.
Qed.

Lemma log2_lt_pow2' v : 0 ≤ v → v < 2 ^ (Z.log2 v + 1).
Proof.
  intros Hv. destruct (Z.eq_dec v 0) as [->|Hne]; [cbn; lia|].
  pose proof (Z.log2_spec v ltac:(lia)). lia.
Qed.

Lemma rnd_mono v1 v2 : 0 ≤ v1 → v1 ≤ v2 → rnd v1 ≤ rnd v2.
Proof.
  intros H1 H12. unfold rnd.
  pose proof (ulp_exp_mono v1 v2 H12) as HE.
  pose proof (ulp_exp_pos v1) as HE1.
  destruct (Z.eq_dec (ulp_exp v1) (ulp_exp v2)) as [Heq|Hne].
  - rewrite <- Heq. apply rnd_at_mono; lia.
  - set (E1 := ulp_exp v1) in *. set (E2 := ulp_exp v2) in *.
    set (L2 := Z.log2 v2).
    assert (HL : E2 = L2 - 52 ∧ Z.log2 v1 < L2).
    { subst E1 E2 L2. unfold ulp_exp in *. lia. }
    destruct HL as [HE2 HL1].
    assert (0 < v2).
    { destruct (Z_lt_le_dec 0 v2); [assumption|].
      pose proof (Z.log2_nonpos v2 ltac:(lia)). pose proof (Z.log2_nonneg v1). subst L2. lia. }
    pose proof (Z.log2_spec v2 ltac:(lia)) as [Hlo _]. fold L2 in Hlo.
    pose proof (log2_lt_pow2' v1 H1) as Hhi.
    assert (HP1 : 0 < 2 ^ E1) by (apply Z.pow_pos_nonneg; lia).
    assert (HP2 : 0 < 2 ^ E2) by (apply Z.pow_pos_nonneg; lia).
    assert (Hv1 : v1 < 2 ^ L2).
    { eapply Z.lt_le_trans; [exact Hhi|]. apply Z.pow_le_mono_r; lia. }
    (* the power of two between them is below the one and above the other *)
    assert (Hup : rnd_at E1 v1 ≤ 2 ^ L2).
    { pose proof (rnd_at_bounds E1 v1 ltac:(lia)) as [_ Hb].
      assert (Hsplit : 2 ^ L2 = 2 ^ (L2 - E1) * 2 ^ E1).
      { rewrite <- Z.pow_add_r by lia. f_equal. lia. }
      assert (v1 / 2 ^ E1 < 2 ^ (L2 - E1)).
      { apply Z.div_lt_upper_bound; [lia|]. rewrite Z.mul_comm. lia. }
      nia. }
    assert (Hdown : 2 ^ L2 ≤ rnd_at E2 v2).
    { pose proof (rnd_at_bounds E2 v2 ltac:(lia)) as [Hb _].
      assert (Hsplit : 2 ^ L2 = 2 ^ 52 * 2 ^ E2).
      { rewrite <- Z.pow_add_r by lia. f_equal. lia. }
      assert (2 ^ 52 ≤ v2 / 2 ^ E2).
      { apply Z.div_le_lower_bound; [lia|]. rewrite Z.mul_comm. lia. }
      nia. }
    lia.
Qed.

Lemma rnd_nonneg v : 0 ≤ v → 0 ≤ rnd v.
Proof.
  intros Hv. unfold rnd. pose proof (ulp_exp_pos v).
  pose proof (rnd_at_bounds (ulp_exp v) v ltac:(lia)) as [Hb _].
  assert (0 < 2 ^ ulp_exp v) by (apply Z.pow_pos_nonneg; lia).
  assert (0 ≤ v / 2 ^ ulp_exp v) by (apply Z.div_pos; lia). nia.
Qed.

(** A value that is a multiple of its last place is left as it is. *)
Lemma rnd_exact v : v mod 2 ^ ulp_exp v = 0 → rnd v = v.
Proof.
  intros Hr. unfold rnd, rnd_at, round_up. rewrite Hr. pose proof (ulp_exp_pos v).
  assert (0 < 2 ^ ulp_exp v) by (apply Z.pow_pos_nonneg; lia).
  destruct (2 ^ ulp_exp v <? 2 * 0) eqn:A; [lia|].
  destruct (2 ^ ulp_exp v =? 2 * 0) eqn:B; [lia|]. cbn.
  pose proof (Z.div_mod v (2 ^ ulp_exp v) ltac:(lia)). lia.
Qed.

Lemma quotient_below_2p53 v : 0 ≤ v → v / 2 ^ ulp_exp v < 2 ^ 53.
Proof.
  intros Hv. pose proof (ulp_exp_pos v).
  apply Z.div_lt_upper_bound; [apply Z.pow_pos_nonneg; lia|].
  rewrite <- Z.pow_add_r by lia.
  eapply Z.lt_le_trans; [apply log2_lt_pow2'; exact Hv|].
  apply Z.pow_le_mono_r; [lia|]. unfold ulp_exp. lia.
Qed.

(** A rounded value is a multiple of its last place. *)
Lemma rnd_multiple v : 0 ≤ v → rnd v mod 2 ^ ulp_exp (rnd v) = 0.
Proof.
  intros Hv. pose proof (ulp_exp_pos v) as HE. pose proof (quotient_below_2p53 v Hv) as Hq.
  assert (Hq0 : 0 ≤ v / 2 ^ ulp_exp v) by (apply Z.div_pos; [lia|apply Z.pow_pos_nonneg; lia]).
  assert (HEm : ulp_min ≤ ulp_exp v) by (unfold ulp_exp; lia).
  unfold rnd, rnd_at.
  set (E := ulp_exp v) in *.
  set (q' := v / 2 ^ E + (if round_up E (v / 2 ^ E) (v mod 2 ^ E) then 1 else 0)).
  assert (Hq' : 0 ≤ q' ≤ 2 ^ 53) by (subst q'; destruct (round_up _ _ _); lia).
  destruct (Z.eq_dec q' 0) as [->|Hne]; [reflexivity|].
  assert (Hlog : Z.log2 (q' * 2 ^ E) = E + Z.log2 q') by (apply Z.log2_mul_pow2; lia).
  destruct (Z.eq_dec q' (2 ^ 53)) as [->|Hlt].
  - unfold ulp_exp. rewrite Hlog, Z.log2_pow2 by lia.
    replace (Z.max (E + 53 - 52) ulp_min) with (E + 1) by lia.
    replace (2 ^ 53 * 2 ^ E) with (2 ^ 52 * 2 ^ (E + 1)).
    + apply Z.mod_mul. apply Z.pow_nonzero; lia.
    + rewrite <- !Z.pow_add_r by lia. f_equal. lia.
  - assert (Z.log2 q' < 53) by (apply Z.log2_lt_pow2; lia).
    set (E' := ulp_exp (q' * 2 ^ E)).
    assert (HE' : 52 ≤ E' ≤ E).
    { subst E'. unfold ulp_exp. rewrite Hlog. change ulp_min with 52 in *. lia. }
    replace (q' * 2 ^ E) with (q' * 2 ^ (E - E') * 2 ^ E').
    + apply Z.mod_mul. apply Z.pow_nonzero; lia.
    + rewrite <- Z.mul_assoc, <- Z.pow_add_r by lia. do 2 f_equal. lia.
Qed.

Lemma rnd_idem v : 0 ≤ v → rnd (rnd v) = rnd v.
Proof. intros Hv. apply rnd_exact. now apply rnd_multiple. Qed.

(** The error of one rounding: half a last place, that is a relative
    [2^-53] or, below the normal range, half the smallest last place. *)
Lemma rnd_err v : 0 ≤ v → 2 ^ 53 * (rnd v - v) ≤ v + 2 ^ 53 * 2 ^ (ulp_min - 1).
Proof.
  intros Hv. pose proof (ulp_exp_pos v) as HE.
  assert (HP : 0 < 2 ^ ulp_exp v) by (apply Z.pow_pos_nonneg; lia).
  assert (Hhalf : 2 ^ ulp_exp v = 2 * 2 ^ (ulp_exp v - 1)).
  { rewrite <- Z.pow_succ_r by lia. f_equal. lia. }
  assert (Herr : rnd v - v ≤ 2 ^ (ulp_exp v - 1)).
  { unfold rnd, rnd_at, round_up.
    pose proof (Z.div_mod v (2 ^ ulp_exp v) ltac:(lia)) as D.
    pose proof (Z.mod_pos_bound v (2 ^ ulp_exp v) HP) as B.
    destruct (2 ^ ulp_exp v <? 2 * (v mod 2 ^ ulp_exp v)) eqn:A1;
      destruct (2 ^ ulp_exp v =? 2 * (v mod 2 ^ ulp_exp v)) eqn:A2;
      destruct (Z.odd (v / 2 ^ ulp_exp v)); cbn [orb andb]; nia. }
  assert (0 < 2 ^ (ulp_exp v - 1)) by (apply Z.pow_pos_nonneg; lia).
  destruct (Z.eq_dec (ulp_exp v) ulp_min) as [Heq|Hne].
  - rewrite Heq in Herr. nia.
  - assert (HL : ulp_exp v = Z.log2 v - 52) by (unfold ulp_exp in *; lia).
    assert (0 < v).
    { destruct (Z_lt_le_dec 0 v); [assumption|].
      pose proof (Z.log2_nonpos v ltac:(lia)). lia. }
    pose proof (Z.log2_spec v ltac:(lia)) as [Hlo _].
    assert (2 ^ 53 * 2 ^ (ulp_exp v - 1) = 2 ^ Z.log2 v).
    { rewrite <- Z.pow_add_r by lia. f_equal. lia. }
    assert (0 < 2 ^ 53 * 2 ^ (ulp_min - 1)).
    { apply Z.mul_pos_pos; apply Z.pow_pos_nonneg; unfold ulp_min, fscale; lia. }
    nia.
Qed.

(** ** The rounding of [SpecFloat] computes [rnd] *)

Lemma digits2_size p : digits2_pos p = Pos.size p.
Proof. induction p as [p IH|p IH|]; cbn; now rewrite ?IH. Qed.

Lemma digits2_log2 p : Z.pos (digits2_pos p) = Z.log2 (Z.pos p) + 1.
Proof.
  rewrite digits2_size. destruct p as [p|p|]; cbn [Z.log2 Pos.size]; try reflexivity;
    rewrite Pos2Z.inj_succ; lia.
Qed.

Lemma fexp_eq x : fexp prec emax x = Z.max (x - 53) (-1074).
Proof. reflexivity. Qed.

Lemma pos_lt_pow2_digits p : Z.pos p < 2 ^ Z.pos (digits2_pos p).
Proof. rewrite digits2_log2. apply log2_lt_pow2'. lia. Qed.

Lemma pos_ge_pow2_digits p : 2 ^ (Z.pos (digits2_pos p) - 1) ≤ Z.pos p.
Proof.
  rewrite digits2_log2. replace (Z.log2 (Z.pos p) + 1 - 1) with (Z.log2 (Z.pos p)) by lia.
  apply Z.log2_spec. lia.
Qed.

(** The record [rec] is what is left of [m] after [n] bits were shifted
    out: the quotient, the last bit shifted out, and whether a one was
    shifted out before it. *)
Definition shifted (m n : Z) (rec : shr_record) : Prop :=
  0 ≤ shr_m rec ∧
  ∃ rem, m = shr_m rec * 2 ^ n + rem ∧ 0 ≤ rem < 2 ^ n ∧
         shr_r rec = (2 ^ n <=? 2 * rem) ∧
         shr_s rec = negb (rem =? 0) && negb (2 * rem =? 2 ^ n).

Lemma shifted_0 m : 0 ≤ m → shifted m 0 (Build_shr_record m false false).
Proof. intros Hm. split; [exact Hm|]. exists 0. cbn. lia. Qed.

Ltac bool_cases :=
  repeat match goal with
         | |- context [?a <=? ?b] => destruct (a <=? b) eqn:?
         | |- context [?a <? ?b] => destruct (a <? b) eqn:?
         | |- context [?a =? ?b] => destruct (a =? b) eqn:?
         end;
  cbn; try reflexivity; lia.

Lemma shifted_1 m n rec : 0 ≤ n → shifted m n rec → shifted m (n + 1) (shr_1 rec).
Proof.
  intros Hn (Hq & rem & Hm & Hrem & Hr & Hs).
  assert (HP : 0 < 2 ^ n) by (apply Z.pow_pos_nonneg; lia).
  assert (HP1 : 2 ^ (n + 1) = 2 * 2 ^ n) by (rewrite Z.pow_add_r by lia; lia).
  destruct rec as [q r s]. cbn [shr_m shr_r shr_s] in *.
  assert (Hrs : r || s = negb (rem =? 0)).
  { rewrite Hr, Hs. destruct (2 ^ n <=? 2 * rem) eqn:A, (rem =? 0) eqn:B,
      (2 * rem =? 2 ^ n) eqn:C; cbn; try reflexivity; lia. }
  destruct q as [|[p|p|]|p]; unfold shifted; cbn [shr_1 shr_m shr_r shr_s]; try lia;
    (split; [lia|]); rewrite Hrs, HP1;
    [exists rem|exists (2 ^ n + rem)|exists rem|exists (2 ^ n + rem)];
    (split; [lia|split; [lia|split]]); bool_cases.
Qed.

Lemma shifted_iter m p : ∀ n rec, 0 ≤ n → shifted m n rec →
  shifted m (n + Z.pos p) (SpecFloat.iter_pos shr_1 p rec).
Proof.
  induction p as [p IH|p IH|]; intros n rec Hn H; cbn [SpecFloat.iter_pos].
  - replace (n + Z.pos p~1) with (n + 1 + Z.pos p + Z.pos p) by lia.
    apply IH; [lia|]. apply IH; [lia|]. now apply shifted_1.
  - replace (n + Z.pos p~0) with (n + Z.pos p + Z.pos p) by lia.
    apply IH; [lia|]. now apply IH.
  - now apply shifted_1.
Qed.

(** The mantissa chosen by [round_nearest_even] after a shift by [n]. *)
Lemma shifted_round m n rec :
  0 ≤ n → shifted m n rec →
  round_nearest_even (shr_m rec) (loc_of_shr_record rec)
  = m / 2 ^ n + (if round_up n (m / 2 ^ n) (m mod 2 ^ n) then 1 else 0).
Proof.
  intros Hn (Hq & rem & Hm & Hrem & Hr & Hs).
  assert (HP : 0 < 2 ^ n) by (apply Z.pow_pos_nonneg; lia).
  assert (Hdiv : m / 2 ^ n = shr_m rec).
  { symmetry. apply (Z.div_unique m (2 ^ n) (shr_m rec) rem); lia. }
  assert (Hmod : m mod 2 ^ n = rem).
  { symmetry. apply (Z.mod_unique m (2 ^ n) (shr_m rec) rem); lia. }
  rewrite Hdiv, Hmod. unfold round_up.
  destruct rec as [q r s]. cbn [shr_m shr_r shr_s loc_of_shr_record] in *.
  rewrite Hr, Hs. rewrite <- Z.negb_even.
  destruct (2 ^ n <=? 2 * rem) eqn:A, (rem =? 0) eqn:B, (2 * rem =? 2 ^ n) eqn:C,
    (2 ^ n <? 2 * rem) eqn:D, (2 ^ n =? 2 * rem) eqn:F, (Z.even q) eqn:G;
    cbn; try lia; change (IntDef.Z.even q) with (Z.even q); rewrite G; lia.
Qed.

Lemma ltb_mul_r a b c : 0 < c → (a * c <? b * c) = (a <? b).
Proof.
  intros Hc. destruct (a <? b) eqn:A.
  - apply Z.ltb_lt. apply Z.ltb_lt in A. nia.
  - apply Z.ltb_ge. apply Z.ltb_ge in A. nia.
Qed.

Lemma eqb_mul_r a b c : 0 < c → (a * c =? b * c) = (a =? b).
Proof.
  intros Hc. destruct (a =? b) eqn:A.
  - apply Z.eqb_eq. apply Z.eqb_eq in A. now subst.
  - apply Z.eqb_neq. apply Z.eqb_neq in A. nia.
Qed.

Lemma shr_fexp_shifted (m : positive) (e : Z) :
  ∃ rec, shr_fexp prec emax (Z.pos m) e loc_Exact
         = (rec, Z.max e (fexp prec emax (Z.pos (digits2_pos m) + e)))
         ∧ shifted (Z.pos m) (Z.max e (fexp prec emax (Z.pos (digits2_pos m) + e)) - e) rec.
Proof.
  unfold shr_fexp, shr. cbn [shr_record_of_loc Zdigits2].
  set (f := fexp prec emax (Z.pos (digits2_pos m) + e)).
  destruct (f - e) as [|p|p] eqn:Hn.
  - eexists. split; [f_equal; lia|]. replace (Z.max e f - e) with 0 by lia.
    apply shifted_0. lia.
  - eexists. split; [f_equal; lia|]. replace (Z.max e f - e) with (0 + Z.pos p) by lia.
    apply shifted_iter; [lia|]. apply shifted_0. lia.
  - eexists. split; [f_equal; lia|]. replace (Z.max e f - e) with 0 by lia.
    apply shifted_0. lia.
Qed.

Lemma shr_fexp_zero (e : Z) :
  -1074 ≤ e →
  shr_fexp prec emax 0 e loc_Exact = (Build_shr_record 0 false false, e).
Proof.
  intros He. unfold shr_fexp, shr. cbn [shr_record_of_loc Zdigits2]. rewrite fexp_eq.
  destruct (Z.max (0 + e - 53) (-1074) - e) eqn:Hn; try reflexivity. lia.
Qed.

Lemma shr_fexp_small (p : positive) (e : Z) :
  -1074 ≤ e → Z.pos p < 2 ^ 53 →
  shr_fexp prec emax (Z.pos p) e loc_Exact = (Build_shr_record (Z.pos p) false false, e).
Proof.
  intros He Hp. unfold shr_fexp, shr. cbn [shr_record_of_loc Zdigits2]. rewrite fexp_eq.
  assert (Z.pos (digits2_pos p) ≤ 53).
  { pose proof (pos_ge_pow2_digits p).
    destruct (Z_le_gt_dec (Z.pos (digits2_pos p)) 53); [assumption|].
    assert (2 ^ 53 ≤ 2 ^ (Z.pos (digits2_pos p) - 1)) by (apply Z.pow_le_mono_r; lia). lia. }
  destruct (Z.max (Z.pos (digits2_pos p) + e - 53) (-1074) - e) eqn:Hn; try reflexivity. lia.
Qed.

Lemma shr_fexp_carry (e : Z) :
  -1075 ≤ e →
  shr_fexp prec emax (2 ^ 53) e loc_Exact = (Build_shr_record (2 ^ 52) false false, e + 1).
Proof.
  intros He. unfold shr_fexp, shr. change (2 ^ 53) with 9007199254740992.
  cbn [shr_record_of_loc Zdigits2]. rewrite fexp_eq.
  replace (Z.pos (digits2_pos 9007199254740992)) with 54 by (vm_compute; reflexivity).
  replace (Z.max (54 + e - 53) (-1074) - e) with 1 by lia. reflexivity.
Qed.

(** Rounding the exact value [m * 2^e], counted as [v] in units of
    [2^-fscale]: unless it overflows, the result is the float of value
    [rnd v]. *)
Lemma binary_round_aux_rnd (s : bool) (m : positive) (e : Z) :
  - fscale ≤ e →
  rnd (Z.pos m * 2 ^ (e + fscale)) < 2 ^ (fscale + 972) →
  match binary_round_aux prec emax s (Z.pos m) e loc_Exact with
  | S754_zero _ => rnd (Z.pos m * 2 ^ (e + fscale)) = 0
  | S754_finite s' m' e' =>
      s' = s ∧ -1074 ≤ e' ∧ Z.pos m' * 2 ^ (e' + fscale) = rnd (Z.pos m * 2 ^ (e + fscale))
  | _ => False
  end.
Proof.
  intros He Hsmall. set (v := Z.pos m * 2 ^ (e + fscale)) in *.
  assert (Hfs : fscale = 1126) by reflexivity.
  unfold binary_round_aux.
  destruct (shr_fexp_shifted m e) as (rec & -> & Hrec).
  rewrite fexp_eq in *. set (d := Z.pos (digits2_pos m)) in *.
  set (e1 := Z.max e (Z.max (d + e - 53) (-1074))) in *.
  assert (Hn : 0 ≤ e1 - e) by lia.
  rewrite (shifted_round _ _ _ Hn Hrec).
  set (n := e1 - e) in *. set (q := Z.pos m / 2 ^ n).
  set (m1 := q + (if round_up n q (Z.pos m mod 2 ^ n) then 1 else 0)).
  assert (HPn : 0 < 2 ^ n) by (apply Z.pow_pos_nonneg; lia).
  assert (HPe : 0 < 2 ^ (e + fscale)) by (apply Z.pow_pos_nonneg; lia).
  assert (Hv : 0 < v) by (subst v; lia).
  assert (Hq0 : 0 ≤ q) by (subst q; apply Z.div_pos; lia).
  assert (Hq53 : q < 2 ^ 53).
  { subst q. apply Z.div_lt_upper_bound; [lia|]. rewrite <- Z.pow_add_r by lia.
    eapply Z.lt_le_trans; [apply pos_lt_pow2_digits|]. fold d.
    apply Z.pow_le_mono_r; lia. }
  assert (Hm1 : 0 ≤ m1 ≤ 2 ^ 53) by (subst m1; destruct (round_up _ _ _); lia).
  (* the value of the rounded mantissa *)
  assert (Hlog : Z.log2 v = e + fscale + Z.log2 (Z.pos m)).
  { subst v. apply Z.log2_mul_pow2; lia. }
  assert (Hulp : ulp_exp v = Z.max (d + e - 53) (-1074) + fscale).
  { unfold ulp_exp. rewrite Hlog. subst d. rewrite digits2_log2.
    change ulp_min with (fscale - 1074). lia. }
  assert (Hval : m1 * 2 ^ (e1 + fscale) = rnd v).
  { assert (Hsplit : 2 ^ (e1 + fscale) = 2 ^ n * 2 ^ (e + fscale)).
    { rewrite <- Z.pow_add_r by lia. f_equal. lia. }
    destruct (Z_le_gt_dec e (Z.max (d + e - 53) (-1074))) as [Hle|Hgt].
    - (* the mantissa is cut at the last place of [v] *)
      unfold rnd, rnd_at. rewrite Hulp.
      replace (Z.max (d + e - 53) (-1074) + fscale) with (e1 + fscale) by lia.
      rewrite Hsplit. subst v.
      rewrite Z.div_mul_cancel_r, Z.mul_mod_distr_r by lia. fold q.
      subst m1. f_equal. f_equal. unfold round_up.
      rewrite Hsplit, !Z.mul_assoc, ltb_mul_r, eqb_mul_r by lia. reflexivity.
    - (* nothing is cut *)
      assert (Hn0 : n = 0) by lia.
      assert (Hm1m : m1 = Z.pos m).
      { subst m1 q. rewrite Hn0. rewrite Z.pow_0_r, Z.div_1_r, Z.mod_1_r.
        change (round_up 0 (Z.pos m) 0) with false. lia. }
      rewrite Hm1m. replace e1 with e by lia. fold v. symmetry. apply rnd_exact.
      rewrite Hulp. subst v.
      replace (e + fscale) with ((e - Z.max (d + e - 53) (-1074))
                                 + (Z.max (d + e - 53) (-1074) + fscale)) by lia.
      rewrite Z.pow_add_r, Z.mul_assoc by lia. apply Z.mod_mul.
      apply Z.pow_nonzero; lia. }
  assert (He1 : -1074 ≤ e1) by lia.
  assert (HPe1 : 0 < 2 ^ (e1 + fscale)).
  { apply Z.pow_pos_nonneg; lia. }
  destruct (Z.eq_dec m1 0) as [Hz|Hnz].
  - rewrite Hz, shr_fexp_zero by exact He1. cbn [shr_m]. rewrite <- Hval, Hz. reflexivity.
  - destruct (Z.eq_dec m1 (2 ^ 53)) as [Hc|Hnc].
    + rewrite Hc, shr_fexp_carry by lia. cbn [shr_m].
      change (2 ^ 52) with (Z.pos 4503599627370496).
      assert (Hval' : Z.pos 4503599627370496 * 2 ^ (e1 + 1 + fscale) = rnd v).
      { rewrite <- Hval, Hc. replace (e1 + 1 + fscale) with (1 + (e1 + fscale)) by lia.
        rewrite Z.pow_add_r by lia. change (2 ^ 53) with 9007199254740992.
        change (2 ^ 1) with 2. lia. }
      assert (e1 + 1 ≤ 971).
      { destruct (Z_le_gt_dec (e1 + 1) 971); [assumption|].
        assert (2 ^ (fscale + 972) ≤ 2 ^ (e1 + 1 + fscale)) by (apply Z.pow_le_mono_r; lia).
        nia. }
      replace (e1 + 1 <=? emax - prec) with true
        by (symmetry; apply Z.leb_le; change (emax - prec) with 971; lia).
      split; [reflexivity|]. split; [lia|exact Hval'].
    + destruct m1 as [|p1|p1] eqn:Hm1eq; [lia| |lia].
      rewrite shr_fexp_small by lia. cbn [shr_m].
      assert (e1 ≤ 971).
      { destruct (Z_le_gt_dec e1 971); [assumption|].
        assert (2 ^ (fscale + 972) ≤ 2 ^ (e1 + fscale)) by (apply Z.pow_le_mono_r; lia).
        nia. }
      replace (e1 <=? emax - prec) with true
        by (symmetry; apply Z.leb_le; change (emax - prec) with 971; lia).
      split; [reflexivity|]. split; [lia|exact Hval].
Qed.

Lemma iter_xO (m d : positive) : Z.pos (Pos.iter xO m d) = Z.pos m * 2 ^ Z.pos d.
Proof.
  induction d as [|d IH] using Pos.peano_ind.
  - cbn [Pos.iter]. rewrite Pos2Z.inj_xO. change (2 ^ 1) with 2. lia.
  - rewrite Pos.iter_succ, Pos2Z.inj_xO, IH, Pos2Z.inj_succ, Z.pow_succ_r by lia. lia.
Qed.

Lemma shl_align_value (mx : positive) (ex ex' : Z) :
  - fscale ≤ ex → - fscale ≤ ex' →
  snd (shl_align mx ex ex') = Z.min ex ex' ∧
  Z.pos (fst (shl_align mx ex ex')) = Z.pos mx * 2 ^ (ex - Z.min ex ex').
Proof.
  intros H1 H2. unfold shl_align. destruct (ex' - ex) as [|d|d] eqn:Hd; cbn [fst snd].
  - split; [lia|]. replace (ex - Z.min ex ex') with 0 by lia. lia.
  - split; [lia|]. replace (ex - Z.min ex ex') with 0 by lia. lia.
  - split; [lia|]. rewrite iter_xO. do 2 f_equal. lia.
Qed.

Lemma binary_round_rnd (s : bool) (m : positive) (e : Z) :
  - fscale ≤ e →
  rnd (Z.pos m * 2 ^ (e + fscale)) < 2 ^ (fscale + 972) →
  match binary_round prec emax s m e with
  | S754_zero _ => rnd (Z.pos m * 2 ^ (e + fscale)) = 0
  | S754_finite s' m' e' =>
      s' = s ∧ -1074 ≤ e' ∧ Z.pos m' * 2 ^ (e' + fscale) = rnd (Z.pos m * 2 ^ (e + fscale))
  | _ => False
  end.
Proof.
  intros He Hsmall. assert (Hfs : fscale = 1126) by reflexivity.
  unfold binary_round. rewrite fexp_eq.
  set (f := Z.max (Z.pos (digits2_pos m) + e - 53) (-1074)).
  destruct (shl_align_value m e f) as [Hsnd Hfst]; [lia|lia|].
  destruct (shl_align m e f) as [mz ez]. cbn [fst snd] in *.
  assert (Hv : Z.pos mz * 2 ^ (ez + fscale) = Z.pos m * 2 ^ (e + fscale)).
  { rewrite Hfst, Hsnd, <- Z.mul_assoc, <- Z.pow_add_r by lia. do 2 f_equal. lia. }
  rewrite <- Hv in *. apply binary_round_aux_rnd; [lia|assumption].
Qed.

(** ** Non-negative finite floats and their values *)

(** [x] is a zero or a positive finite float of scaled value [V]. *)
Definition nonneg_float (x : spec_float) (V : Z) : Prop :=
  match x with
  | S754_zero _ => V = 0
  | S754_finite false m e => -1074 ≤ e ∧ V = Z.pos m * 2 ^ (e + fscale)
  | _ => False
  end.

(** [x] is the float of the integer [n], [0 <= n]. *)
Definition int_float (x : spec_float) (n : Z) : Prop :=
  match x with
  | S754_zero _ => n = 0
  | S754_finite false m e => -52 ≤ e ≤ 0 ∧ Z.pos m * 2 ^ (e + 52) = n * 2 ^ 52
  | _ => False
  end.

Lemma rnd_0 : rnd 0 = 0.
Proof. reflexivity. Qed.

Lemma nonneg_float_nonneg x V : nonneg_float x V → 0 ≤ V.
Proof.
  destruct x as [s|s| |[|] m e]; cbn; try tauto; [lia|].
  intros [He ->]. assert (0 < 2 ^ (e + fscale)); [|lia].
  apply Z.pow_pos_nonneg; [lia|]. unfold fscale. lia.
Qed.

Lemma round_nonneg (m : positive) (e : Z) :
  - fscale ≤ e →
  rnd (Z.pos m * 2 ^ (e + fscale)) < 2 ^ (fscale + 972) →
  nonneg_float (binary_round_aux prec emax false (Z.pos m) e loc_Exact)
    (rnd (Z.pos m * 2 ^ (e + fscale))).
Proof.
  intros He Hs. pose proof (binary_round_aux_rnd false m e He Hs) as H.
  destruct (binary_round_aux _ _ _ _ _ _) as [s|s| |s m' e']; cbn; try tauto.
  destruct H as (-> & He' & Hv). split; [exact He'|now symmetry].
Qed.

Lemma round_nonneg' (m : positive) (e : Z) :
  - fscale ≤ e →
  rnd (Z.pos m * 2 ^ (e + fscale)) < 2 ^ (fscale + 972) →
  nonneg_float (binary_round prec emax false m e) (rnd (Z.pos m * 2 ^ (e + fscale))).
Proof.
  intros He Hs. pose proof (binary_round_rnd false m e He Hs) as H.
  destruct (binary_round _ _ _ _ _) as [s|s| |s m' e']; cbn; try tauto.
  destruct H as (-> & He' & Hv). split; [exact He'|now symmetry].
Qed.

(** The product of the float of an integer and a non-negative float. *)
Lemma SFmul_int (x y : spec_float) (n V : Z) :
  int_float x n → nonneg_float y V →
  rnd (n * V) < 2 ^ (fscale + 972) →
  nonneg_float (SF64mul x y) (rnd (n * V)).
Proof.
  intros Hx Hy Hs. assert (Hfs : fscale = 1126) by reflexivity.
  destruct x as [sx|sx| |[|] mx ex]; cbn in Hx; try tauto;
    destruct y as [sy|sy| |[|] my ey]; cbn in Hy; try tauto.
  - subst. cbn. reflexivity.
  - subst. cbn. reflexivity.
  - subst. cbn. now rewrite Z.mul_0_r.
  - destruct Hx as (Hex & Hmx). destruct Hy as (Hey & ->).
    unfold SF64mul, SFmul. cbn [xorb].
    assert (Hv : Z.pos (mx * my) * 2 ^ (ex + ey + fscale) = n * (Z.pos my * 2 ^ (ey + fscale))).
    { apply (Z.mul_cancel_r _ _ (2 ^ 52)); [lia|].
      rewrite Pos2Z.inj_mul.
      replace (Z.pos mx * Z.pos my * 2 ^ (ex + ey + fscale) * 2 ^ 52)
        with ((Z.pos mx * 2 ^ (ex + 52)) * (Z.pos my * 2 ^ (ey + fscale))).
      - rewrite Hmx. ring.
      - replace (Z.pos mx * Z.pos my * 2 ^ (ex + ey + fscale) * 2 ^ 52)
          with (Z.pos mx * Z.pos my * (2 ^ (ex + ey + fscale) * 2 ^ 52)) by ring.
        rewrite <- (Z.pow_add_r 2 (ex + ey + fscale) 52) by lia.
        replace (ex + ey + fscale + 52) with ((ex + 52) + (ey + fscale)) by lia.
        rewrite (Z.pow_add_r 2 (ex + 52) (ey + fscale)) by lia. ring. }
    rewrite <- Hv in *. apply round_nonneg; [lia|assumption].
Qed.

(** The sum of two non-negative floats. *)
Lemma SFadd_nonneg (x y : spec_float) (Vx Vy : Z) :
  nonneg_float x Vx → nonneg_float y Vy →
  rnd Vx = Vx → rnd Vy = Vy →
  rnd (Vx + Vy) < 2 ^ (fscale + 972) →
  nonneg_float (SF64add x y) (rnd (Vx + Vy)).
Proof.
  intros Hx Hy Rx Ry Hs. assert (Hfs : fscale = 1126) by reflexivity.
  destruct x as [sx|sx| |[|] mx ex]; cbn in Hx; try tauto;
    destruct y as [sy|sy| |[|] my ey]; cbn in Hy; try tauto.
  - subst. destruct sx, sy; cbn; reflexivity.
  - destruct Hy as (Hey & HVy). subst Vx. cbn [SF64add SFadd].
    rewrite Z.add_0_l, Ry. cbn. split; assumption.
  - destruct Hx as (Hex & HVx). subst Vy. cbn [SF64add SFadd].
    rewrite Z.add_0_r, Rx. cbn. split; assumption.
  - destruct Hx as (Hex & ->). destruct Hy as (Hey & ->).
    unfold SF64add, SFadd. cbn [cond_Zopp]. cbv zeta.
    destruct (shl_align_value mx ex (Z.min ex ey)) as [_ Hfx]; [lia|lia|].
    destruct (shl_align_value my ey (Z.min ex ey)) as [_ Hfy]; [lia|lia|].
    set (ax := fst (shl_align mx ex (Z.min ex ey))) in *.
    set (ay := fst (shl_align my ey (Z.min ex ey))) in *.
    change (Z.pos ax + Z.pos ay) with (Z.pos (ax + ay)). cbn [binary_normalize].
    assert (Hv : Z.pos (ax + ay) * 2 ^ (Z.min ex ey + fscale)
                 = Z.pos mx * 2 ^ (ex + fscale) + Z.pos my * 2 ^ (ey + fscale)).
    { rewrite Pos2Z.inj_add, Hfx, Hfy, Z.mul_add_distr_r.
      rewrite <- !Z.mul_assoc, <- !Z.pow_add_r by lia.
      f_equal; do 2 f_equal; lia. }
    rewrite <- Hv in *. apply round_nonneg'; [lia|assumption].
Qed.

(** [1 - |y|] for a finite [y] with [|y| <= 1], computed as a difference
    ([y] positive) or as a sum ([y] negative). *)
Lemma normalize_difference (a b : positive) (e : Z) (V : Z) :
  - fscale ≤ e →
  (Z.pos a - Z.pos b) * 2 ^ (e + fscale) = V → 0 ≤ V →
  rnd V < 2 ^ (fscale + 972) →
  nonneg_float (binary_normalize prec emax (Z.pos a - Z.pos b) e false) (rnd V).
Proof.
  intros He HV H0 Hs. assert (Hfs : fscale = 1126) by reflexivity.
  assert (HP : 0 < 2 ^ (e + fscale)) by (apply Z.pow_pos_nonneg; lia).
  destruct (Z.pos a - Z.pos b) as [|p|p] eqn:HM.
  - cbn. subst V. reflexivity.
  - cbn [binary_normalize]. subst V. apply round_nonneg'; assumption.
  - subst V. lia.
Qed.

Definition SF_one : spec_float := S754_finite false 4503599627370496 (-52).

Lemma one_minus_magnitude (s : bool) (m : positive) (e : Z) :
  -1074 ≤ e → Z.pos m * 2 ^ (e + fscale) ≤ 2 ^ fscale →
  nonneg_float (if s then SF64add SF_one (S754_finite true m e)
                else SF64sub SF_one (S754_finite false m e))
    (rnd (2 ^ fscale - Z.pos m * 2 ^ (e + fscale))).
Proof.
  intros He Hle. assert (Hfs : fscale = 1126) by reflexivity.
  assert (HS : 0 < 2 ^ fscale) by (apply Z.pow_pos_nonneg; lia).
  set (ez := Z.min (-52) e).
  destruct (shl_align_value 4503599627370496 (-52) ez) as [_ Hf1]; [lia|lia|].
  destruct (shl_align_value m e ez) as [_ Hfm]; [lia|lia|].
  replace (Z.min (-52) ez) with ez in Hf1 by lia.
  replace (Z.min e ez) with ez in Hfm by lia.
  assert (Hdiff : (Z.pos (fst (shl_align 4503599627370496 (-52) ez))
                   - Z.pos (fst (shl_align m e ez))) * 2 ^ (ez + fscale)
                  = 2 ^ fscale - Z.pos m * 2 ^ (e + fscale)).
  { rewrite Z.mul_sub_distr_r, Hf1, Hfm.
    rewrite <- !Z.mul_assoc, <- !Z.pow_add_r by lia.
    replace (-52 - ez + (ez + fscale)) with (fscale - 52) by lia.
    replace (e - ez + (ez + fscale)) with (e + fscale) by lia.
    change (Z.pos 4503599627370496) with (2 ^ 52). rewrite <- Z.pow_add_r by lia.
    replace (52 + (fscale - 52)) with fscale by lia. reflexivity. }
  assert (Hsmall : rnd (2 ^ fscale - Z.pos m * 2 ^ (e + fscale)) < 2 ^ (fscale + 972)).
  { eapply Z.le_lt_trans; [apply (rnd_mono _ (2 ^ fscale)); lia|].
    rewrite rnd_exact.
    - apply Z.pow_lt_mono_r; lia.
    - unfold ulp_exp. rewrite Z.log2_pow2 by lia. change ulp_min with (fscale - 1074).
      replace (Z.max (fscale - 52) (fscale - 1074)) with (fscale - 52) by lia.
      replace fscale with (52 + (fscale - 52)) at 1 by lia.
      rewrite Z.pow_add_r by lia. apply Z.mod_mul. apply Z.pow_nonzero; lia. }
  destruct s.
  - unfold SF64add, SFadd, SF_one. cbn [cond_Zopp]. cbv zeta. fold ez.
    change (Z.pos ?a + - Z.pos ?b) with (Z.pos a - Z.pos b).
    apply normalize_difference; [lia|exact Hdiff|lia|exact Hsmall].
  - unfold SF64sub, SFsub, SF_one. cbn [cond_Zopp]. cbv zeta. fold ez.
    apply normalize_difference; [lia|exact Hdiff|lia|exact Hsmall].
Qed.

(** ** The floats of the lightness pixel *)

Ltac const_bound :=
  vm_compute;
  first [ discriminate | reflexivity
        | split; first [ discriminate | reflexivity ] ].

Lemma rnd_scaled_int (n k : Z) : 0 ≤ n < 2 ^ 53 → ulp_min ≤ k → rnd (n * 2 ^ k) = n * 2 ^ k.
Proof.
  intros Hn Hk. apply rnd_exact. change ulp_min with 52 in *.
  destruct (Z.eq_dec n 0) as [->|Hnz]; [reflexivity|].
  assert (Z.log2 n < 53) by (apply Z.log2_lt_pow2; lia).
  unfold ulp_exp. rewrite Z.log2_mul_pow2 by lia. change ulp_min with 52.
  set (u := Z.max (k + Z.log2 n - 52) 52).
  replace k with ((k - u) + u) at 1 by lia.
  rewrite Z.pow_add_r, Z.mul_assoc by lia. apply Z.mod_mul. apply Z.pow_nonzero; lia.
Qed.

Lemma rnd_le_int (n v : Z) :
  0 ≤ v ≤ n * 2 ^ fscale → 0 ≤ n < 2 ^ 53 → rnd v ≤ n * 2 ^ fscale.
Proof.
  intros Hv Hn. rewrite <- (rnd_scaled_int n fscale) by (try assumption; const_bound).
  apply rnd_mono; lia.
Qed.

Lemma small_is_finite (n v : Z) :
  v ≤ n * 2 ^ fscale → 0 ≤ n ≤ 1024 → v < 2 ^ (fscale + 972).
Proof.
  intros Hv Hn. assert (0 < 2 ^ fscale) by (apply Z.pow_pos_nonneg; unfold fscale; lia).
  rewrite Z.pow_add_r by (unfold fscale; lia).
  assert (1024 < 2 ^ 972) by (apply Z.ltb_lt; vm_compute; reflexivity). nia.
Qed.

Definition int_float_b (x : spec_float) (n : Z) : bool :=
  match x with
  | S754_zero _ => n =? 0
  | S754_finite false m e =>
      (-52 <=? e) && (e <=? 0) && (Z.pos m * 2 ^ (e + 52) =? n * 2 ^ 52)
  | _ => false
  end.

Lemma int_float_b_spec x n : int_float_b x n = true → int_float x n.
Proof.
  destruct x as [s|s| |[|] m e]; cbn; try discriminate.
  - apply Z.eqb_eq.
  - rewrite !andb_true_iff, !Z.leb_le, Z.eqb_eq. tauto.
Qed.

Lemma float64_byte (g : Z) : is_uint8 g → int_float (Prim2SF (float64 g)) g.
Proof.
  intros Hg. apply int_float_b_spec. revert g Hg.
  apply (uint8_cases (λ g, int_float_b (Prim2SF (float64 g)) g)).
  vm_compute. reflexivity.
Qed.

Lemma SFleb_positive (m1 m2 : positive) (e1 e2 : Z) :
  SFleb (S754_finite false m1 e1) (S754_finite false m2 e2) = true →
  e1 < e2 ∨ (e1 = e2 ∧ Z.pos m1 ≤ Z.pos m2).
Proof.
  unfold SFleb, SFcompare.
  change (PosDef.Pos.compare_cont Eq m1 m2) with (Pos.compare m1 m2).
  destruct (Z.compare_spec e1 e2) as [Heq|Hlt|Hgt]; [|lia|discriminate].
  destruct (Pos.compare_spec m1 m2) as [Hc|Hc|Hc]; [| |discriminate]; intros _; right.
  - subst. split; [reflexivity|apply Z.le_refl].
  - split; [exact Heq|]. apply Pos2Z.pos_le_pos, Pos.lt_le_incl, Hc.
Qed.

Lemma SFleb_negative (m1 m2 : positive) (e1 e2 : Z) :
  SFleb (S754_finite true m1 e1) (S754_finite true m2 e2) = true →
  e2 < e1 ∨ (e2 = e1 ∧ Z.pos m2 ≤ Z.pos m1).
Proof.
  unfold SFleb, SFcompare.
  change (PosDef.Pos.compare_cont Eq m1 m2) with (Pos.compare m1 m2).
  destruct (Z.compare_spec e1 e2) as [Heq|Hlt|Hgt]; [|discriminate|lia].
  destruct (Pos.compare_spec m1 m2) as [Hc|Hc|Hc]; cbn; [|discriminate|]; intros _; right.
  - subst. split; [reflexivity|apply Z.le_refl].
  - split; [now symmetry|]. apply Pos2Z.pos_le_pos, Pos.lt_le_incl, Hc.
Qed.

(** A ratio between -1 and 1 is a zero or a finite float of magnitude at
    most 1. *)
Lemma ratio_magnitude (ratio : float) :
  (-1 <=? ratio)%float = true → (ratio <=? 1)%float = true →
  match Prim2SF ratio with
  | S754_zero _ => True
  | S754_finite s m e => -1074 ≤ e ∧ Z.pos m * 2 ^ (e + fscale) ≤ 2 ^ fscale
  | _ => False
  end.
Proof.
  rewrite !FloatAxioms.leb_spec. pose proof (Prim2SF_valid ratio) as Hvalid.
  change (Prim2SF (-1)) with (S754_finite true 4503599627370496 (-52)).
  change (Prim2SF 1) with (S754_finite false 4503599627370496 (-52)).
  destruct (Prim2SF ratio) as [s|s| |s m e]; [trivial| | |].
  - destruct s; cbn; discriminate.
  - cbn. discriminate.
  - intros Hlo Hhi. assert (Hfs : fscale = 1126) by reflexivity.
    cbn [valid_binary] in Hvalid. unfold bounded, canonical_mantissa in Hvalid.
    apply andb_true_iff in Hvalid as [Hcan _]. apply Z.eqb_eq in Hcan.
    rewrite fexp_eq in Hcan. pose proof (pos_lt_pow2_digits m) as Hm.
    set (d := Z.pos (digits2_pos m)) in *.
    split; [lia|].
    assert (Hcases : e < -52 ∨ (e = -52 ∧ Z.pos m ≤ 2 ^ 52)).
    { change (2 ^ 52) with (Z.pos 4503599627370496). destruct s.
      - apply SFleb_negative in Hlo. lia.
      - apply SFleb_positive in Hhi. lia. }
    destruct Hcases as [Hlt|[-> Hle]].
    + assert (Z.pos m < 2 ^ 53).
      { eapply Z.lt_le_trans; [exact Hm|]. apply Z.pow_le_mono_r; lia. }
      assert (0 < 2 ^ (e + fscale)) by (apply Z.pow_pos_nonneg; lia).
      assert (2 ^ 53 * 2 ^ (e + fscale) ≤ 2 ^ fscale).
      { rewrite <- Z.pow_add_r by lia. apply Z.pow_le_mono_r; lia. }
      eapply Z.le_trans; [|eassumption].
      apply Z.mul_le_mono_nonneg_r; lia.
    + assert (Hone : 2 ^ 52 * 2 ^ (-52 + fscale) = 2 ^ fscale).
      { rewrite <- Z.pow_add_r by lia. f_equal; lia. }
      assert (0 < 2 ^ (-52 + fscale)) by (apply Z.pow_pos_nonneg; lia).
      rewrite <- Hone. apply Z.mul_le_mono_nonneg_r; lia.
Qed.

(** The conversion to [uint8] of a non-negative float below 256. *)
Lemma uint8_of_nonneg (f : float) (V : Z) :
  nonneg_float (Prim2SF f) V → V < 256 * 2 ^ fscale →
  uint8_of_float64 f = Done (V / 2 ^ fscale).
Proof.
  intros Hf Hlt. assert (Hfs : fscale = 1126) by reflexivity.
  assert (HS : 0 < 2 ^ fscale) by (apply Z.pow_pos_nonneg; lia).
  pose proof (nonneg_float_nonneg _ _ Hf) as H0.
  assert (Hrange : 0 ≤ V / 2 ^ fscale < 256).
  { split; [apply Z.div_pos; lia|apply Z.div_lt_upper_bound; lia]. }
  unfold uint8_of_float64, float64_trunc.
  destruct (Prim2SF f) as [s|s| |[|] m e]; cbn in Hf; try tauto.
  - subst V. rewrite Z.div_0_l by lia. reflexivity.
  - destruct Hf as (He & HV).
    assert (Hsh : Z.shiftl (Z.pos m) e = V / 2 ^ fscale).
    { subst V. destruct (Z_le_gt_dec 0 e) as [Hpos|Hneg].
      - rewrite Z.shiftl_mul_pow2, Z.pow_add_r, Z.mul_assoc, Z.div_mul by lia. reflexivity.
      - rewrite Z.shiftl_div_pow2 by lia.
        replace (2 ^ fscale) with (2 ^ (- e) * 2 ^ (e + fscale)).
        + rewrite Z.div_mul_cancel_r; [reflexivity|apply Z.pow_nonzero; lia|].
          apply Z.pow_nonzero; lia.
        + rewrite <- Z.pow_add_r by lia. f_equal. lia. }
    rewrite Hsh. change (2 ^ 8) with 256.
    destruct (0 <=? V / 2 ^ fscale) eqn:A; [|lia].
    destruct (V / 2 ^ fscale <? 256) eqn:B; [|lia]. reflexivity.
Qed.

(** The magnitude of a ratio, in units of [2^-fscale]. *)
Definition magnitude (x : spec_float) : Z :=
  match x with
  | S754_finite _ m e => Z.pos m * 2 ^ (e + fscale)
  | _ => 0
  end.

(** The float computed for gray level [g]: with [C = rnd (1 - |ratio|)], it
    is [rnd (rnd (g * C) + rnd (255 * ratio))] for a positive ratio and
    [rnd (g * C)] otherwise. *)
Definition lightness_value (g : Z) (x : spec_float) : Z :=
  let C := rnd (2 ^ fscale - magnitude x) in
  match x with
  | S754_finite false _ _ => rnd (rnd (g * C) + rnd (255 * magnitude x))
  | _ => rnd (g * C)
  end.

Lemma scale_pos : 0 < 2 ^ fscale.
Proof. apply Z.pow_pos_nonneg; unfold fscale; lia. Qed.

Lemma rnd_one : rnd (2 ^ fscale) = 2 ^ fscale.
Proof.
  rewrite <- (Z.mul_1_l (2 ^ fscale)). apply rnd_scaled_int; [|vm_compute; discriminate].
  split; [lia|reflexivity].
Qed.

Lemma one_minus_le (R : Z) : 0 ≤ R ≤ 2 ^ fscale → 0 ≤ rnd (2 ^ fscale - R) ≤ 2 ^ fscale.
Proof.
  intros HR. split; [apply rnd_nonneg; lia|].
  rewrite <- rnd_one at 2. apply rnd_mono; lia.
Qed.

Lemma pow2_53 : 2 ^ 53 = 9007199254740992.
Proof. reflexivity. Qed.

(** The lifted pixel stays below 256: three roundings, each off by at most
    half a last place. *)
Lemma lift_below_256 (g R : Z) :
  0 ≤ g ≤ 255 → 0 ≤ R ≤ 2 ^ fscale →
  rnd (rnd (g * rnd (2 ^ fscale - R)) + rnd (255 * R)) ≤ 511 * 2 ^ (fscale - 1).
Proof.
  intros Hg HR.
  pose proof (one_minus_le R HR) as HC.
  set (C := rnd (2 ^ fscale - R)) in *.
  assert (HP : rnd (g * C) ≤ rnd (255 * C)) by (apply rnd_mono; nia).
  pose proof (rnd_nonneg (g * C) ltac:(nia)) as HP0.
  pose proof (rnd_nonneg (255 * R) ltac:(lia)) as HC20.
  pose proof (rnd_err (2 ^ fscale - R) ltac:(lia)) as E1. fold C in E1.
  pose proof (rnd_err (255 * C) ltac:(lia)) as E2.
  pose proof (rnd_err (255 * R) ltac:(lia)) as E3.
  rewrite <- (rnd_scaled_int 511 (fscale - 1)) by (const_bound).
  apply rnd_mono; [lia|].
  assert (Hhalf : 2 ^ fscale = 2 * 2 ^ (fscale - 1)).
  { rewrite <- Z.pow_succ_r by (unfold fscale; lia). f_equal. }
  assert (Hbig : 2 ^ 200 ≤ 2 ^ (fscale - 1)) by (apply Z.pow_le_mono_r; unfold fscale; lia).
  rewrite pow2_53 in *. change (2 ^ (ulp_min - 1)) with 2251799813685248 in *.
  change (2 ^ 200) with 1606938044258990275541962092341162602522202993782792835301376 in Hbig.
  set (P := rnd (g * C)) in *. set (P' := rnd (255 * C)) in *.
  set (C2 := rnd (255 * R)) in *.
  rewrite Hhalf in *. set (H := 2 ^ (fscale - 1)) in *.
  clearbody P P' C2 C H. lia.
Qed.

Lemma lightness_value_mono (x : spec_float) (g1 g2 : Z) :
  0 ≤ g1 ≤ g2 → magnitude x ≤ 2 ^ fscale →
  lightness_value g1 x ≤ lightness_value g2 x.
Proof.
  intros Hg Hx.
  assert (HR : 0 ≤ magnitude x).
  { destruct x as [s|s| |s m e]; cbn [magnitude]; [lia|lia|lia|].
    assert (0 ≤ 2 ^ (e + fscale)) by (apply Z.pow_nonneg; lia). lia. }
  pose proof (one_minus_le (magnitude x) ltac:(lia)) as HC.
  unfold lightness_value. cbv zeta.
  set (C := rnd (2 ^ fscale - magnitude x)) in *.
  assert (H12 : rnd (g1 * C) ≤ rnd (g2 * C)) by (apply rnd_mono; nia).
  assert (0 ≤ rnd (g1 * C)) by (apply rnd_nonneg; nia).
  assert (0 ≤ rnd (255 * magnitude x)) by (apply rnd_nonneg; lia).
  destruct x as [s|s| |[|] m e]; try exact H12.
  apply rnd_mono; lia.
Qed.

Lemma SF_one_value : nonneg_float SF_one (2 ^ fscale).
Proof. split; [lia|]. reflexivity. Qed.

(** What the lightness pixel returns on a byte, for a ratio in [-1, 1]. *)
Lemma AdjustLightness_pixel_value (gray : Z) (ratio : float) :
  is_uint8 gray →
  (-1 <=? ratio)%float = true → (ratio <=? 1)%float = true →
  AdjustLightness_pixel gray ratio
  = Done (lightness_value gray (Prim2SF ratio) / 2 ^ fscale).
Proof.
  intros Hg Hlo Hhi. pose proof (ratio_magnitude ratio Hlo Hhi) as Hr.
  pose proof (float64_byte gray Hg) as Hgf. pose proof scale_pos as HS.
  assert (Hfs : fscale = 1126) by reflexivity.
  assert (Hhalf : 2 ^ fscale = 2 * 2 ^ (fscale - 1)).
  { rewrite <- Z.pow_succ_r by lia. f_equal. }
  unfold is_uint8 in Hg.
  unfold AdjustLightness_pixel. rewrite FloatAxioms.ltb_spec.
  change (Prim2SF 0) with (S754_zero false).
  destruct (Prim2SF ratio) as [s|s| |s m e] eqn:Hx; try tauto.
  - (* a zero ratio *)
    cbn [SFltb SFcompare]. apply uint8_of_nonneg.
    + rewrite FloatAxioms.mul_spec, FloatAxioms.add_spec, Hx.
      change (Prim2SF 1) with SF_one. change (SF64add SF_one (S754_zero s)) with SF_one.
      unfold lightness_value. cbn [magnitude]. rewrite Z.sub_0_r, rnd_one.
      apply SFmul_int; [exact Hgf|exact SF_one_value|].
      apply (small_is_finite 255); [|lia]. apply rnd_le_int; [nia|const_bound].
    + unfold lightness_value. cbn [magnitude]. rewrite Z.sub_0_r, rnd_one.
      eapply Z.le_lt_trans; [apply (rnd_le_int 255)|]; [nia|const_bound|lia].
  - destruct Hr as (He & HR). pose proof (one_minus_magnitude s m e He HR) as Hone.
    assert (HR0 : 0 < Z.pos m * 2 ^ (e + fscale)).
    { assert (0 < 2 ^ (e + fscale)) by (apply Z.pow_pos_nonneg; lia). lia. }
    pose proof (one_minus_le (Z.pos m * 2 ^ (e + fscale)) ltac:(lia)) as HC.
    destruct s.
    + (* a negative ratio *)
      cbn [SFltb SFcompare]. unfold lightness_value. cbn [magnitude].
      set (C := rnd (2 ^ fscale - Z.pos m * 2 ^ (e + fscale))) in *.
      assert (Hle : rnd (gray * C) ≤ 255 * 2 ^ fscale).
      { apply rnd_le_int; [nia|const_bound]. }
      apply uint8_of_nonneg; [|lia].
      rewrite FloatAxioms.mul_spec, FloatAxioms.add_spec, Hx. change (Prim2SF 1) with SF_one.
      apply SFmul_int; [exact Hgf|exact Hone|]. apply (small_is_finite 255); lia.
    + (* a positive ratio *)
      cbn [SFltb SFcompare]. unfold lightness_value. cbn [magnitude].
      set (R := Z.pos m * 2 ^ (e + fscale)) in *.
      set (C := rnd (2 ^ fscale - R)) in *.
      assert (HP : 0 ≤ rnd (gray * C) ≤ 255 * 2 ^ fscale).
      { split; [apply rnd_nonneg; nia|].
        apply rnd_le_int; [nia|const_bound]. }
      assert (HC2 : 0 ≤ rnd (255 * R) ≤ 255 * 2 ^ fscale).
      { split; [apply rnd_nonneg; lia|].
        apply rnd_le_int; [lia|const_bound]. }
      pose proof (lift_below_256 gray R ltac:(lia) ltac:(lia)) as Hsum. fold C in Hsum.
      apply uint8_of_nonneg; [|lia].
      rewrite FloatAxioms.add_spec, !FloatAxioms.mul_spec, FloatAxioms.sub_spec, Hx.
      change (Prim2SF 1) with SF_one.
      apply SFadd_nonneg.
      * apply SFmul_int; [exact Hgf|exact Hone|]. apply (small_is_finite 255); lia.
      * apply SFmul_int.
        -- apply int_float_b_spec. vm_compute. reflexivity.
        -- split; [exact He|reflexivity].
        -- apply (small_is_finite 255); lia.
      * apply rnd_idem. nia.
      * apply rnd_idem. lia.
      * apply (small_is_finite 256); lia.
Qed.

(** ** Integers as floats *)

(** The float of an integer of Go's [int] range is a zero or finite. *)
Lemma float64_finite (v : Z) :
  - 2 ^ 63 < v < 2 ^ 63 →
  match Prim2SF (float64 v) with
  | S754_zero _ | S754_finite _ _ _ => True
  | _ => False
  end.
Proof.
  intros Hv. assert (Hfs : fscale = 1126) by reflexivity.
  assert (Hnat : ∀ n, 0 ≤ n < 2 ^ 63 →
            match Prim2SF (of_uint63 (Uint63.of_Z n)) with
            | S754_zero _ | S754_finite _ _ _ => True
            | _ => False
            end).
  { intros n Hn. rewrite FloatAxioms.of_uint63_spec, Uint63.of_Z_spec.
    change wB with (2 ^ 63). rewrite Z.mod_small by lia.
    destruct n as [|p|p]; [exact I| |lia]. cbn [binary_normalize].
    assert (Hs : rnd (Z.pos p * 2 ^ (0 + fscale)) < 2 ^ (fscale + 972)).
    { rewrite Z.add_0_l. pose proof scale_pos as HS.
      assert (Hsplit : 2 ^ (63 + fscale) = 2 ^ 63 * 2 ^ fscale) by (apply Z.pow_add_r; lia).
      eapply Z.le_lt_trans.
      - apply (rnd_mono _ (1 * 2 ^ (63 + fscale))); [lia|].
        rewrite Z.mul_1_l, Hsplit. apply Z.mul_le_mono_nonneg_r; lia.
      - rewrite rnd_scaled_int by const_bound. rewrite Z.mul_1_l.
        apply Z.pow_lt_mono_r; lia. }
    pose proof (binary_round_rnd false p 0 ltac:(lia) Hs) as Hb.
    destruct (binary_round _ _ _ _ _); tauto. }
  unfold float64. destruct (0 <=? v) eqn:Hsign.
  - apply Hnat. lia.
  - rewrite FloatAxioms.opp_spec. pose proof (Hnat (- v) ltac:(lia)) as Hn.
    destruct (Prim2SF (of_uint63 (Uint63.of_Z (- v)))); cbn; tauto.
Qed.

(** An integer times a zero scale is truncated to 0. *)
Lemma zero_scale_size (v : Z) (shrink : float) :
  - 2 ^ 63 < v < 2 ^ 63 → (shrink =? 0)%float = true →
  int_of_float64 (float64 v * shrink) = Done 0.
Proof.
  intros Hv Hz. pose proof (float64_finite v Hv) as Hf.
  rewrite FloatAxioms.eqb_spec in Hz. change (Prim2SF 0) with (S754_zero false) in Hz.
  unfold int_of_float64, float64_trunc. rewrite FloatAxioms.mul_spec.
  destruct (Prim2SF shrink) as [s|s| |s m e]; try discriminate Hz.
  - destruct (Prim2SF (float64 v)) as [s'|s'| |s' m' e']; try tauto; reflexivity.
  - destruct s; discriminate Hz.
  - destruct s; discriminate Hz.
Qed.

(** * Properties *)

(** C1. On 1 by 1 inputs at scale 1 (target size 1 by 1) the stages give the
    output rasters of test vectors S3, S4 and S5: the single pixel
    (127,127,127,128), (127,127,127,255) and (255,255,255,0). *)
Theorem test_vectors_S3_S4_S5 :
  int_of_float64 (float64 1 * 1) = Done 1 ∧
  Build_stages (pixel1 128 128 128) (pixel1 128 128 128)
    = Done (image.mkNRGBA [127; 127; 127; 128] 4 (image.Rect 0 0 1 1)) ∧
  Build_stages (pixel1 0 0 0) (pixel1 255 255 255)
    = Done (image.mkNRGBA [127; 127; 127; 255] 4 (image.Rect 0 0 1 1)) ∧
  Build_stages (pixel1 255 255 255) (pixel1 0 0 0)
    = Done (image.mkNRGBA [255; 255; 255; 0] 4 (image.Rect 0 0 1 1)).
Proof. repeat split; vm_compute; reflexivity. Qed.

(** C2. On conformant gray rasters DivideBlend returns a raster of the same
    bounds whose pixel is 255 where the divisor pixel X is 0 and
    clamp8((Y * 255) / X) elsewhere, the product being at most 65025 and the
    division truncating. *)
Theorem DivideBlend_pixels (imgX imgY : image.Gray) :
  Gray_wf imgX → Gray_wf imgY →
  image.Gray_Bounds imgX = image.Gray_Bounds imgY →
  ∃ Z, DivideBlend imgX imgY = Done Z ∧
       image.Gray_Bounds Z = image.Gray_Bounds imgX ∧
       ∀ x y, image.In x y (image.Gray_Bounds imgX) = true →
         let X := Gray_pixel imgX x y in
         let Y := Gray_pixel imgY x y in
         0 ≤ Y * 255 ≤ 65025 ∧
         image.GrayAt Z x y
         = Done (color.mkGray (if X =? 0 then 255 else clamp8 ((Y * 255) ÷ X))).
Proof.
  intros HX HY Hconf. eexists. split; [now apply DivideBlend_spec|].
  split; [reflexivity|]. intros x y Hin X Y. split.
  - destruct (GrayAt_wf imgY x y HY) as [_ Hb]. unfold is_uint8 in Hb. subst Y. lia.
  - now rewrite Gray_tabulate_At.
Qed.

Lemma DivideBlend_pixels_witness :
  ∃ Z, DivideBlend sample_gray sample_gray' = Done Z ∧
       image.Gray_Bounds Z = image.Gray_Bounds sample_gray ∧
       ∀ x y, image.In x y (image.Gray_Bounds sample_gray) = true →
         let X := Gray_pixel sample_gray x y in
         let Y := Gray_pixel sample_gray' x y in
         0 ≤ Y * 255 ≤ 65025 ∧
         image.GrayAt Z x y
         = Done (color.mkGray (if X =? 0 then 255 else clamp8 ((Y * 255) ÷ X))).
Proof.
  apply (DivideBlend_pixels sample_gray sample_gray').
  - apply Gray_ok_wf. reflexivity.
  - apply Gray_ok_wf. reflexivity.
  - reflexivity.
Defined.

(** C4. For an image whose pixels have 16-bit channels r, g, b, Desaturate
    returns the raster of the same bounds whose gray level is
    (max(r>>8, g>>8, b>>8) + min(r>>8, g>>8, b>>8)) / 2: high bytes by
    truncation, and a truncating division by 2. *)
Theorem Desaturate_lightness {I} `{image.Image I} (img : I) :
  Image_wf img →
  ∃ G, Desaturate img = Done G ∧
       image.Gray_Bounds G = image.Bounds img ∧
       ∀ x y r g b a, image.In x y (image.Bounds img) = true →
         image.At img x y = Done (color.mkColor (r, g, b, a)) →
         image.GrayAt G x y
         = Done (color.mkGray
                   ((Z.max (Z.max (Z.shiftr r 8) (Z.shiftr g 8)) (Z.shiftr b 8)
                     + Z.min (Z.min (Z.shiftr r 8) (Z.shiftr g 8)) (Z.shiftr b 8)) / 2)).
Proof.
  intros Hwf. eexists. split; [now apply Desaturate_spec|]. split; [reflexivity|].
  intros x y r g b a Hin Hat. rewrite Gray_tabulate_At by assumption.
  unfold Image_rgb. rewrite Hat. reflexivity.
Qed.

Lemma Desaturate_lightness_witness :
  ∃ G, Desaturate sample_rgba = Done G ∧
       image.Gray_Bounds G = image.Bounds sample_rgba ∧
       ∀ x y r g b a, image.In x y (image.Bounds sample_rgba) = true →
         image.At sample_rgba x y = Done (color.mkColor (r, g, b, a)) →
         image.GrayAt G x y
         = Done (color.mkGray
                   ((Z.max (Z.max (Z.shiftr r 8) (Z.shiftr g 8)) (Z.shiftr b 8)
                     + Z.min (Z.min (Z.shiftr r 8) (Z.shiftr g 8)) (Z.shiftr b 8)) / 2)).
Proof.
  apply (Desaturate_lightness sample_rgba).
  apply RGBA_Image_wf, RGBA_ok_wf. reflexivity.
Defined.

(** C5. DivideBlend by a divisor raster that is 255 everywhere returns the
    dividend: same bounds, same pixel at every position. *)
Theorem DivideBlend_white (imgX imgY : image.Gray) :
  Gray_wf imgX → Gray_wf imgY →
  image.Gray_Bounds imgX = image.Gray_Bounds imgY →
  (∀ x y, image.In x y (image.Gray_Bounds imgX) = true → Gray_pixel imgX x y = 255) →
  ∃ Z, DivideBlend imgX imgY = Done Z ∧ Gray_same Z imgY.
Proof.
  intros HX HY Hconf Hwhite. unfold image.Gray_Bounds in *.
  eexists. split; [now apply DivideBlend_spec|].
  rewrite (Gray_tabulate_ext _ _ (Gray_pixel imgY)).
  - rewrite Hconf. now apply Gray_tabulate_same.
  - apply HX.
  - intros x y Hin. rewrite (Hwhite x y Hin). unfold divide8. cbn [Z.eqb].
    destruct (GrayAt_wf imgY x y HY) as [_ Hb]. unfold is_uint8 in Hb.
    rewrite Z.quot_div_nonneg, Z.div_mul by lia. unfold clamp8. lia.
Qed.

Lemma DivideBlend_white_witness :
  ∃ Z, DivideBlend sample_white sample_gray = Done Z ∧ Gray_same Z sample_gray.
Proof.
  apply (DivideBlend_white sample_white sample_gray).
  - apply Gray_ok_wf. reflexivity.
  - apply Gray_ok_wf. reflexivity.
  - reflexivity.
  - intros x y Hin. apply In_spec in Hin. cbn in Hin.
    assert (Hx : x = 0 ∨ x = 1 ∨ x = 2) by lia. assert (Hy : y = 0 ∨ y = 1) by lia.
    destruct Hx as [-> | [-> | ->]], Hy as [-> | ->]; reflexivity.
Defined.

(** C6. Invert maps each pixel Y to 255 - Y, and inverting twice gives back
    the raster: same bounds, same pixel at every position. *)
Theorem Invert_involution (G : image.Gray) :
  Gray_wf G →
  ∃ G1 G2, Invert G = Done G1 ∧ Invert G1 = Done G2 ∧ Gray_same G2 G ∧
           ∀ x y, image.In x y (image.Gray_Bounds G) = true →
             image.GrayAt G1 x y = Done (color.mkGray (255 - Gray_pixel G x y)).
Proof.
  intros Hwf. pose proof Hwf as (Hw & Hh & Hsz & _).
  assert (Hwf1 : Gray_wf (Gray_tabulate (image.Gray_Rect G) (λ x y, 255 - Gray_pixel G x y))).
  { apply Gray_tabulate_wf; [assumption|assumption|assumption|]. intros x y _.
    destruct (GrayAt_wf G x y Hwf) as [_ Hb]. unfold is_uint8 in *. lia. }
  eexists. eexists. split; [now apply Invert_spec|].
  split; [now apply Invert_spec|]. split.
  - cbn [Gray_tabulate image.Gray_Rect].
    rewrite (Gray_tabulate_ext _ _ (Gray_pixel G)).
    + now apply Gray_tabulate_same.
    + assumption.
    + intros x y Hin. rewrite Gray_tabulate_pixel by assumption. lia.
  - intros x y Hin. now rewrite Gray_tabulate_At.
Qed.

Lemma Invert_involution_witness :
  ∃ G1 G2, Invert sample_shifted = Done G1 ∧ Invert G1 = Done G2 ∧
           Gray_same G2 sample_shifted ∧
           ∀ x y, image.In x y (image.Gray_Bounds sample_shifted) = true →
             image.GrayAt G1 x y = Done (color.mkGray (255 - Gray_pixel sample_shifted x y)).
Proof.
  apply (Invert_involution sample_shifted). apply Gray_ok_wf. reflexivity.
Defined.

(** C7. On conformant gray rasters LinearDodgeBlend returns the same raster
    whichever way round the operands are given, each pixel being
    clamp8(X + Y). *)
Theorem LinearDodgeBlend_comm (imgX imgY : image.Gray) :
  Gray_wf imgX → Gray_wf imgY →
  image.Gray_Bounds imgX = image.Gray_Bounds imgY →
  ∃ Z, LinearDodgeBlend imgX imgY = Done Z ∧ LinearDodgeBlend imgY imgX = Done Z ∧
       ∀ x y, image.In x y (image.Gray_Bounds imgX) = true →
         image.GrayAt Z x y
         = Done (color.mkGray (clamp8 (Gray_pixel imgX x y + Gray_pixel imgY x y))).
Proof.
  intros HX HY Hconf. unfold image.Gray_Bounds in *.
  eexists. split; [now apply LinearDodgeBlend_spec|]. split.
  - rewrite LinearDodgeBlend_spec by assumption. rewrite <- Hconf. f_equal.
    apply Gray_tabulate_ext; [apply HX|]. intros x y _. f_equal. lia.
  - intros x y Hin. now rewrite Gray_tabulate_At.
Qed.

Lemma LinearDodgeBlend_comm_witness :
  ∃ Z, LinearDodgeBlend sample_gray sample_gray' = Done Z ∧
       LinearDodgeBlend sample_gray' sample_gray = Done Z ∧
       ∀ x y, image.In x y (image.Gray_Bounds sample_gray) = true →
         image.GrayAt Z x y
         = Done (color.mkGray (clamp8 (Gray_pixel sample_gray x y + Gray_pixel sample_gray' x y))).
Proof.
  apply (LinearDodgeBlend_comm sample_gray sample_gray').
  - apply Gray_ok_wf. reflexivity.
  - apply Gray_ok_wf. reflexivity.
  - reflexivity.
Defined.

(** C8. AdjustLightness with ratio 0 returns the raster it was given (same
    bounds, same pixel at every position), and on every byte the formula of
    the branch [ratio > 0] and the formula of the branch [ratio <= 0] give
    the byte itself at ratio 0. *)
Theorem AdjustLightness_zero (G : image.Gray) :
  Gray_wf G →
  (∃ G', AdjustLightness G 0 = Done G' ∧ Gray_same G' G) ∧
  ∀ Y, is_uint8 Y →
    uint8_of_float64 (float64 Y * (1 - 0) + 255 * 0)%float = Done Y ∧
    uint8_of_float64 (float64 Y * (1 + 0))%float = Done Y.
Proof.
  intros Hwf. split.
  - eexists. split; [apply AdjustLightness_spec with (f := λ b, b);
                     [apply AdjustLightness_pixel_zero|assumption]|].
    now apply Gray_tabulate_same.
  - intros Y HY. split; apply outcome_is_Done; revert Y HY.
    + apply (uint8_cases (λ Y, outcome_is
        (uint8_of_float64 (float64 Y * (1 - 0) + 255 * 0)%float) Y)).
      vm_compute. reflexivity.
    + apply (uint8_cases (λ Y, outcome_is (uint8_of_float64 (float64 Y * (1 + 0))%float) Y)).
      vm_compute. reflexivity.
Qed.

Lemma AdjustLightness_zero_witness :
  (∃ G', AdjustLightness sample_shifted 0 = Done G' ∧ Gray_same G' sample_shifted) ∧
  ∀ Y, is_uint8 Y →
    uint8_of_float64 (float64 Y * (1 - 0) + 255 * 0)%float = Done Y ∧
    uint8_of_float64 (float64 Y * (1 + 0))%float = Done Y.
Proof.
  apply (AdjustLightness_zero sample_shifted). apply Gray_ok_wf. reflexivity.
Defined.

(** C9. On gray rasters that need not be conformant, LinearDodgeBlend,
    DivideBlend and AddMask all return, the result has the bounds of the
    first operand, and a position outside the bounds of the second operand
    is read there as gray level 0. *)
Theorem binary_stages_nonconformant (imgX imgY : image.Gray) :
  Gray_wf imgX → Gray_wf imgY →
  ∃ L D M,
    LinearDodgeBlend imgX imgY = Done L ∧ DivideBlend imgX imgY = Done D ∧
    AddMask imgX imgY = Done M ∧
    image.Gray_Bounds L = image.Gray_Bounds imgX ∧
    image.Gray_Bounds D = image.Gray_Bounds imgX ∧
    image.NRGBA_Bounds M = image.Gray_Bounds imgX ∧
    ∀ x y, image.In x y (image.Gray_Bounds imgY) = false →
      image.GrayAt imgY x y = Done (color.mkGray 0) ∧
      (image.In x y (image.Gray_Bounds imgX) = true →
       let X := Gray_pixel imgX x y in
       image.GrayAt L x y = Done (color.mkGray (clamp8 (X + 0))) ∧
       image.GrayAt D x y = Done (color.mkGray (divide8 X 0)) ∧
       image.NRGBAAt M x y = Done (color.mkNRGBA X X X 0)).
Proof.
  intros HX HY. unfold image.Gray_Bounds.
  eexists. eexists. eexists.
  split; [now apply LinearDodgeBlend_spec|]. split; [now apply DivideBlend_spec|].
  split; [now apply AddMask_spec|]. split; [reflexivity|]. split; [reflexivity|].
  split; [reflexivity|]. intros x y Hout. split; [now apply GrayAt_outside|].
  intros Hin.
  rewrite !Gray_tabulate_At, NRGBA_tabulate_At by assumption.
  now rewrite (Gray_pixel_outside imgY x y Hout).
Qed.

Lemma binary_stages_nonconformant_witness :
  ∃ L D M,
    LinearDodgeBlend sample_gray sample_shifted = Done L ∧
    DivideBlend sample_gray sample_shifted = Done D ∧
    AddMask sample_gray sample_shifted = Done M ∧
    image.Gray_Bounds L = image.Gray_Bounds sample_gray ∧
    image.Gray_Bounds D = image.Gray_Bounds sample_gray ∧
    image.NRGBA_Bounds M = image.Gray_Bounds sample_gray ∧
    ∀ x y, image.In x y (image.Gray_Bounds sample_shifted) = false →
      image.GrayAt sample_shifted x y = Done (color.mkGray 0) ∧
      (image.In x y (image.Gray_Bounds sample_gray) = true →
       let X := Gray_pixel sample_gray x y in
       image.GrayAt L x y = Done (color.mkGray (clamp8 (X + 0))) ∧
       image.GrayAt D x y = Done (color.mkGray (divide8 X 0)) ∧
       image.NRGBAAt M x y = Done (color.mkNRGBA X X X 0)).
Proof.
  apply (binary_stages_nonconformant sample_gray sample_shifted).
  - apply Gray_ok_wf. reflexivity.
  - apply Gray_ok_wf. reflexivity.
Defined.

(** C10. For a ratio in [-1, 1] the lightness pixel returns on every byte,
    and a larger byte never gets a smaller result. *)
Theorem AdjustLightness_pixel_monotone (ratio : float) (Y1 Y2 : Z) :
  (-1 <=? ratio)%float = true → (ratio <=? 1)%float = true →
  is_uint8 Y1 → is_uint8 Y2 → Y1 ≤ Y2 →
  ∃ Z1 Z2, AdjustLightness_pixel Y1 ratio = Done Z1 ∧
           AdjustLightness_pixel Y2 ratio = Done Z2 ∧ Z1 ≤ Z2.
Proof.
  intros Hlo Hhi H1 H2 H12.
  exists (lightness_value Y1 (Prim2SF ratio) / 2 ^ fscale),
         (lightness_value Y2 (Prim2SF ratio) / 2 ^ fscale).
  split; [now apply AdjustLightness_pixel_value|].
  split; [now apply AdjustLightness_pixel_value|].
  apply Z.div_le_mono; [exact scale_pos|].
  apply lightness_value_mono; [unfold is_uint8 in *; lia|].
  pose proof (ratio_magnitude ratio Hlo Hhi) as Hr.
  destruct (Prim2SF ratio) as [s|s| |s m e]; cbn [magnitude]; try tauto;
    pose proof scale_pos; lia.
Qed.

Lemma AdjustLightness_pixel_monotone_witness :
  ∃ Z1 Z2, AdjustLightness_pixel 10 0.25 = Done Z1 ∧
           AdjustLightness_pixel 200 0.25 = Done Z2 ∧ Z1 ≤ Z2.
Proof.
  apply (AdjustLightness_pixel_monotone 0.25 10 200).
  - reflexivity.
  - reflexivity.
  - unfold is_uint8. lia.
  - unfold is_uint8. lia.
  - lia.
Defined.

(** ** The driver and the scale factor *)

(** Once the sources are decoded and the target size is known and can be
    allocated: a zero side ends the run in [log.Fatal], any other size goes
    through. *)
Lemma Build_after_decode {Src} `{!image.Image Src} (File : Type)
    (os_Open : string → result File) (image_Decode : File → result Src)
    (os_Create : string → result File)
    (File_Write : File → image.NRGBA → result unit)
    (Scale : image.RGBA → image.Rectangle → Src → image.Rectangle → image.RGBA)
    (sourceX sourceY targetName : string) (shrink : float)
    (fA fB : File) (imgA imgB : Src) (width height : Z) :
  Scale_keeps_raster Scale →
  os_Open sourceX = Ok fA → os_Open sourceY = Ok fB →
  image_Decode fA = Ok imgA → image_Decode fB = Ok imgB →
  int_of_float64 (float64 (image.X (image.Max (image.Bounds imgA))) * shrink) = Done width →
  int_of_float64 (float64 (image.Y (image.Max (image.Bounds imgA))) * shrink) = Done height →
  image.fits (image.Rect 0 0 width height) →
  let run := Build File os_Open image_Decode os_Create File_Write Scale
               sourceX sourceY targetName shrink in
  (width = 0 ∨ height = 0 → rejected run) ∧
  (width ≠ 0 → height ≠ 0 → Z.abs width < 2 ^ 32 → Z.abs height < 2 ^ 32 →
   ∀ out, os_Create targetName = Ok out → (∀ m, File_Write out m = Ok tt) →
     ∃ img, run = Done img ∧
            image.Dx (image.NRGBA_Bounds img) = Z.abs width ∧
            image.Dy (image.NRGBA_Bounds img) = Z.abs height).
Proof.
  intros HS HoA HoB HdA HdB Hw Hh Hfit run. subst run. unfold Build.
  rewrite HoA, HoB. cbn [or_Fatal mbind outcome_bind]. rewrite HdA, HdB.
  cbn [or_Fatal mbind outcome_bind]. rewrite Hw, Hh. cbn [mbind outcome_bind].
  destruct (resize_wf Scale imgA width height HS Hfit) as (rA & -> & HrA & RA).
  destruct (resize_wf Scale imgB width height HS Hfit) as (rB & -> & HrB & RB).
  cbn [mbind outcome_bind].
  destruct (Build_stages_returns rA rB (RGBA_Image_wf rA HrA) (RGBA_Image_wf rB HrB))
    as (final & -> & Hbounds).
  cbn [mbind outcome_bind image.Bounds image.RGBA_Image image.RGBA_Bounds] in *.
  unfold image.RGBA_Bounds in Hbounds. rewrite RA in Hbounds.
  destruct (Rect_size width height) as [HDx HDy].
  unfold png.Encode. rewrite Hbounds, HDx, HDy. cbv zeta. split.
  - intros Hzero. destruct (os_Create targetName) as [out|err]; cbn [or_Fatal mbind outcome_bind].
    + assert ((Z.abs width <=? 0) || (Z.abs height <=? 0) = true) as ->.
      { apply orb_true_iff. rewrite !Z.leb_le. lia. }
      cbn [orb or_Fatal mbind outcome_bind]. eexists. reflexivity.
    + eexists. reflexivity.
  - intros Hw0 Hh0 Hw32 Hh32 out Hcreate Hwrite. rewrite Hcreate.
    cbn [or_Fatal mbind outcome_bind].
    destruct (Z.abs width <=? 0) eqn:E1; [lia|]. destruct (Z.abs height <=? 0) eqn:E2; [lia|].
    destruct (2 ^ 32 <=? Z.abs width) eqn:E3; [lia|].
    destruct (2 ^ 32 <=? Z.abs height) eqn:E4; [lia|].
    cbn [orb]. rewrite Hwrite. cbn [or_Fatal mbind outcome_bind mret outcome_ret].
    eexists. split; [reflexivity|]. rewrite Hbounds. now split.
Qed.

(** The bounds of every decoded image fit in Go's [int]. *)
Definition Decode_in_int {Src File} `{!image.Image Src}
    (image_Decode : File → result Src) : Prop :=
  ∀ f img, image_Decode f = Ok img →
    - 2 ^ 63 < image.X (image.Max (image.Bounds img)) < 2 ^ 63 ∧
    - 2 ^ 63 < image.Y (image.Max (image.Bounds img)) < 2 ^ 63.

(** A world for examples: every file opens, both sources decode to the same
    2 by 2 gray image, and the resampler leaves the fresh raster as it is. *)
Definition open_any (name : string) : result unit := Ok tt.
Definition decode_sample (f : unit) : result image.Gray := Ok sample_shifted.
Definition write_any (f : unit) (m : image.NRGBA) : result unit := Ok tt.
Definition scale_blank (dst : image.RGBA) (dr : image.Rectangle)
    (src : image.Gray) (sr : image.Rectangle) : image.RGBA := dst.

Lemma scale_blank_keeps_raster : Scale_keeps_raster scale_blank.
Proof. intros dst dr src sr Hwf. split; [exact Hwf|reflexivity]. Qed.

Lemma decode_sample_in_int : Decode_in_int decode_sample.
Proof. intros f img Heq. injection Heq as <-. vm_compute. repeat split. Qed.

(** C3, as stated, fails: with scale -1 the run goes through and an output
    image is produced. *)
Lemma negative_scale_not_rejected :
  ¬ (∀ (Src : Type) (Img : image.Image Src) (File : Type)
       (os_Open : string → result File) (image_Decode : File → result Src)
       (os_Create : string → result File)
       (File_Write : File → image.NRGBA → result unit)
       (Scale : image.RGBA → image.Rectangle → Src → image.Rectangle → image.RGBA)
       (sourceX sourceY targetName : string) (shrink : float),
       Scale_keeps_raster Scale → Decode_in_int image_Decode →
       (shrink <=? 0)%float = true →
       rejected (Build File os_Open image_Decode os_Create File_Write Scale
                   sourceX sourceY targetName shrink)).
Proof.
  intros Hall.
  destruct (Hall image.Gray _ unit open_any decode_sample open_any write_any scale_blank
              "a.png"%string "b.png"%string "target.png"%string (-1)%float
              scale_blank_keeps_raster decode_sample_in_int eq_refl)
    as [err Herr].
  vm_compute in Herr. discriminate Herr.
Qed.

(** C3, amended. Build does not look at the scale. A scale equal to 0 is
    rejected: the run always ends in [log.Fatal], at the latest when the
    encoder refuses the empty image. For any scale, once both sources are
    decoded and the target width and height are computed, of a size that can
    be allocated, a width or height of 0 ends the run in [log.Fatal], and a
    non-zero width and height below 2^32 in absolute value, negative ones
    included, give an output image of that absolute size as soon as the
    target file can be created and written. *)
Theorem Build_scale_unchecked {Src} `{!image.Image Src} (File : Type)
    (os_Open : string → result File) (image_Decode : File → result Src)
    (os_Create : string → result File)
    (File_Write : File → image.NRGBA → result unit)
    (Scale : image.RGBA → image.Rectangle → Src → image.Rectangle → image.RGBA)
    (sourceX sourceY targetName : string) (shrink : float) :
  Scale_keeps_raster Scale → Decode_in_int image_Decode →
  let run := Build File os_Open image_Decode os_Create File_Write Scale
               sourceX sourceY targetName shrink in
  ((shrink =? 0)%float = true → rejected run) ∧
  ∀ (fA fB : File) (imgA imgB : Src) (width height : Z),
    os_Open sourceX = Ok fA → os_Open sourceY = Ok fB →
    image_Decode fA = Ok imgA → image_Decode fB = Ok imgB →
    int_of_float64 (float64 (image.X (image.Max (image.Bounds imgA))) * shrink) = Done width →
    int_of_float64 (float64 (image.Y (image.Max (image.Bounds imgA))) * shrink) = Done height →
    image.fits (image.Rect 0 0 width height) →
    (width = 0 ∨ height = 0 → rejected run) ∧
    (width ≠ 0 → height ≠ 0 → Z.abs width < 2 ^ 32 → Z.abs height < 2 ^ 32 →
     ∀ out, os_Create targetName = Ok out → (∀ m, File_Write out m = Ok tt) →
       ∃ img, run = Done img ∧
              image.Dx (image.NRGBA_Bounds img) = Z.abs width ∧
              image.Dy (image.NRGBA_Bounds img) = Z.abs height).
Proof.
  intros HS HD run. split.
  - intros Hzero.
    destruct (os_Open sourceX) as [fA|errA] eqn:HoA;
      [|eexists; subst run; unfold Build; rewrite HoA; reflexivity].
    destruct (os_Open sourceY) as [fB|errB] eqn:HoB;
      [|eexists; subst run; unfold Build; rewrite HoA, HoB; reflexivity].
    destruct (image_Decode fA) as [imgA|errA] eqn:HdA;
      [|eexists; subst run; unfold Build; rewrite HoA, HoB; cbn [or_Fatal mbind outcome_bind];
        rewrite HdA; reflexivity].
    destruct (image_Decode fB) as [imgB|errB] eqn:HdB;
      [|eexists; subst run; unfold Build; rewrite HoA, HoB; cbn [or_Fatal mbind outcome_bind];
        rewrite HdA, HdB; reflexivity].
    destruct (HD fA imgA HdA) as [HX HY].
    apply (Build_after_decode File os_Open image_Decode os_Create File_Write Scale
             sourceX sourceY targetName shrink fA fB imgA imgB 0 0 HS HoA HoB HdA HdB
             (zero_scale_size _ _ HX Hzero) (zero_scale_size _ _ HY Hzero)).
    + split; reflexivity.
    + now left.
  - intros fA fB imgA imgB width height HoA HoB HdA HdB Hw Hh Hfit.
    exact (Build_after_decode File os_Open image_Decode os_Create File_Write Scale
             sourceX sourceY targetName shrink fA fB imgA imgB width height
             HS HoA HoB HdA HdB Hw Hh Hfit).
Qed.

Lemma Build_scale_unchecked_witness :
  let run := Build unit open_any decode_sample open_any write_any scale_blank
               "a.png"%string "b.png"%string "target.png"%string 0%float in
  ((0 =? 0)%float = true → rejected run) ∧
  ∀ (fA fB : unit) (imgA imgB : image.Gray) (width height : Z),
    open_any "a.png"%string = Ok fA → open_any "b.png"%string = Ok fB →
    decode_sample fA = Ok imgA → decode_sample fB = Ok imgB →
    int_of_float64 (float64 (image.X (image.Max (image.Bounds imgA))) * 0) = Done width →
    int_of_float64 (float64 (image.Y (image.Max (image.Bounds imgA))) * 0) = Done height →
    image.fits (image.Rect 0 0 width height) →
    (width = 0 ∨ height = 0 → rejected run) ∧
    (width ≠ 0 → height ≠ 0 → Z.abs width < 2 ^ 32 → Z.abs height < 2 ^ 32 →
     ∀ out, open_any "target.png"%string = Ok out → (∀ m, write_any out m = Ok tt) →
       ∃ img, run = Done img ∧
              image.Dx (image.NRGBA_Bounds img) = Z.abs width ∧
              image.Dy (image.NRGBA_Bounds img) = Z.abs height).
Proof.
  apply (Build_scale_unchecked unit open_any decode_sample open_any write_any scale_blank
           "a.png"%string "b.png"%string "target.png"%string 0%float).
  - exact scale_blank_keeps_raster.
  - exact decode_sample_in_int.
Defined.
